(** * simpleperf JIT/Dex debug-info reader: a shallow embedding

    The development follows [simpleperf/JITDebugReader.cpp].  The reader
    polls two linked lists that live in the address space of another
    process; every cross-process read observes the target at a later
    instant, so the target is modelled as a time-indexed memory and the
    reader carries the index of its next observation. *)

From Stdlib Require Import ZArith List Bool Lia String Sorting.Sorted.
From Stdlib.Strings Require Import Byte.
From stdpp Require Import base tactics decidable option list gmap strings pretty.
From stdpp Require Import relations sorting.

Local Open Scope Z_scope.

(** ** Machine integers and bytes *)

Definition u32 (x : Z) : Z := x mod 2 ^ 32.
Definition u64 (x : Z) : Z := x mod 2 ^ 64.

Definition byte_val (b : byte) : Z := Z.of_N (Byte.to_N b).

(** Little-endian value of a byte string (all supported hosts are
    little-endian). *)
Fixpoint le_decode (bs : list byte) : Z :=
  match bs with
  | [] => 0
  | b :: bs' => byte_val b + 256 * le_decode bs'
  end.

Definition slice (off size : Z) (bs : list byte) : list byte :=
  take (Z.to_nat size) (drop (Z.to_nat off) bs).

Definition field (off size : Z) (bs : list byte) : Z := le_decode (slice off size bs).

(** ** Host ABI and structure layout

    The reader is compiled for one of four ABIs; the i386 ABI aligns
    64-bit integers to 4 bytes, the others to 8. *)

Inductive Host := i386 | x86_64 | arm | aarch64.

Definition align_of_u64 (h : Host) : Z :=
  match h with i386 => 4 | _ => 8 end.

Definition host_bits (h : Host) : Z :=
  match h with i386 | arm => 32 | _ => 64 end.

(** Width in bytes of the template parameter [ADDRT]. *)
Inductive ADDRT := uint32_t | uint64_t.

Definition sizeof_ADDRT (a : ADDRT) : Z :=
  match a with uint32_t => 4 | uint64_t => 8 end.

(** A member is described by its size and its alignment. *)
Definition member : Type := Z * Z.

Definition m_u32 : member := (4, 4).
Definition m_u64 (h : Host) : member := (8, align_of_u64 h).
Definition m_addr (h : Host) (a : ADDRT) : member :=
  match a with uint32_t => m_u32 | uint64_t => m_u64 h end.
Definition m_bytes (n : Z) : member := (n, 1).

Definition round_up (x a : Z) : Z := (x + a - 1) / a * a.

(** [offsets packed ms at] lists the offset of every member, then the
    end of the last one; [__attribute__((packed))] drops all padding. *)
Fixpoint offsets (packed : bool) (ms : list member) (at_ : Z) : list Z * Z :=
  match ms with
  | [] => ([], at_)
  | (sz, al) :: ms' =>
      let off := if packed then at_ else round_up at_ al in
      let '(offs, end_) := offsets packed ms' (off + sz) in
      (off :: offs, end_)
  end.

Definition struct_align (packed : bool) (ms : list member) : Z :=
  if packed then 1 else foldr (fun m acc => Z.max (snd m) acc) 1 ms.

Definition struct_size (packed : bool) (ms : list member) : Z :=
  round_up (snd (offsets packed ms 0)) (struct_align packed ms).

Definition member_offset (packed : bool) (ms : list member) (i : nat) : Z :=
  nth i (fst (offsets packed ms 0)) 0.

Definition member_size (ms : list member) (i : nat) : Z :=
  fst (nth i ms (0, 1)).

Definition get_member (packed : bool) (ms : list member) (i : nat) (bs : list byte) : Z :=
  field (member_offset packed ms i) (member_size ms i) bs.

(** ** On-target structures *)

(** [template <typename ADDRT> struct JITDescriptor] *)
Module JITDescriptor.
Record t := mk {
  version : Z;
  action_flag : Z;
  relevant_entry_addr : Z;
  first_entry_addr : Z;
  magic : list byte;
  flags : Z;
  sizeof_descriptor : Z;
  sizeof_entry : Z;
  action_seqlock : Z;
  action_timestamp : Z;
}.

Definition members (h : Host) (a : ADDRT) : list member :=
  [m_u32; m_u32; m_addr h a; m_addr h a; m_bytes 8; m_u32; m_u32; m_u32; m_u32; m_u64 h].

Definition sizeof (h : Host) (a : ADDRT) : Z := struct_size false (members h a).

Definition decode (h : Host) (a : ADDRT) (bs : list byte) : t :=
  let ms := members h a in
  {| version := get_member false ms 0 bs;
     action_flag := get_member false ms 1 bs;
     relevant_entry_addr := get_member false ms 2 bs;
     first_entry_addr := get_member false ms 3 bs;
     magic := slice (member_offset false ms 4) 8 bs;
     flags := get_member false ms 5 bs;
     sizeof_descriptor := get_member false ms 6 bs;
     sizeof_entry := get_member false ms 7 bs;
     action_seqlock := get_member false ms 8 bs;
     action_timestamp := get_member false ms 9 bs |}.

(** [int AndroidVersion() const { return magic[7] - '0'; }] *)
Definition AndroidVersion (d : t) : Z :=
  match magic d !! 7%nat with
  | Some b => byte_val b - 48
  | None => -48
  end.
End JITDescriptor.

(** The three layouts a code entry template can be instantiated with. *)
Inductive Packing := Natural | Packed | Padded.

(** [JITCodeEntry<ADDRT>] and [PackedJITCodeEntry<ADDRT>] ("Android1"). *)
Module JITCodeEntry.
Record t := mk {
  next_addr : Z;
  prev_addr : Z;
  symfile_addr : Z;
  symfile_size : Z;
  register_timestamp : Z;
}.

Definition members (h : Host) (a : ADDRT) : list member :=
  [m_addr h a; m_addr h a; m_addr h a; m_u64 h; m_u64 h].

Definition is_packed (p : Packing) : bool :=
  match p with Natural => false | _ => true end.

Definition sizeof (h : Host) (a : ADDRT) (p : Packing) : Z :=
  struct_size (is_packed p) (members h a).

Definition decode (h : Host) (a : ADDRT) (p : Packing) (bs : list byte) : t :=
  let ms := members h a in
  let get := get_member (is_packed p) ms in
  {| next_addr := get 0%nat bs;
     prev_addr := get 1%nat bs;
     symfile_addr := get 2%nat bs;
     symfile_size := get 3%nat bs;
     register_timestamp := get 4%nat bs |}.

(** [bool Valid() const { return symfile_addr > 0u && symfile_size > 0u; }] *)
Definition Valid (e : t) : bool := (0 <? symfile_addr e) && (0 <? symfile_size e).
End JITCodeEntry.

(** [JITCodeEntryV2<ADDRT>], [PackedJITCodeEntryV2<ADDRT>] and
    [PaddedJITCodeEntryV2<ADDRT>] ("Android2"). *)
Module JITCodeEntryV2.
Record t := mk {
  next_addr : Z;
  prev_addr : Z;
  symfile_addr : Z;
  symfile_size : Z;
  register_timestamp : Z;
  seqlock : Z;
}.

Definition members (h : Host) (a : ADDRT) (p : Packing) : list member :=
  [m_addr h a; m_addr h a; m_addr h a; m_u64 h; m_u64 h; m_u32]
  ++ match p with Padded => [m_u32] | _ => [] end.

Definition is_packed (p : Packing) : bool :=
  match p with Natural => false | _ => true end.

Definition sizeof (h : Host) (a : ADDRT) (p : Packing) : Z :=
  struct_size (is_packed p) (members h a p).

Definition decode (h : Host) (a : ADDRT) (p : Packing) (bs : list byte) : t :=
  let ms := members h a p in
  let get := get_member (is_packed p) ms in
  {| next_addr := get 0%nat bs;
     prev_addr := get 1%nat bs;
     symfile_addr := get 2%nat bs;
     symfile_size := get 3%nat bs;
     register_timestamp := get 4%nat bs;
     seqlock := get 5%nat bs |}.

(** [bool Valid() const { return (seqlock & 1) == 0; }] *)
Definition Valid (e : t) : bool := Z.land (seqlock e) 1 =? 0.
End JITCodeEntryV2.

(** The interface [ReadNewCodeEntriesImpl] needs from its template
    parameter [CodeEntryT]. *)
Class CodeEntryT (T : Type) := {
  sizeof_entry : Z;
  decode_entry : list byte -> T;
  next_addr : T -> Z;
  prev_addr : T -> Z;
  symfile_addr : T -> Z;
  symfile_size : T -> Z;
  register_timestamp : T -> Z;
  Valid : T -> bool;
}.

Definition V1_CodeEntryT (h : Host) (a : ADDRT) (p : Packing) : CodeEntryT JITCodeEntry.t :=
  {| sizeof_entry := JITCodeEntry.sizeof h a p;
     decode_entry := JITCodeEntry.decode h a p;
     next_addr := JITCodeEntry.next_addr;
     prev_addr := JITCodeEntry.prev_addr;
     symfile_addr := JITCodeEntry.symfile_addr;
     symfile_size := JITCodeEntry.symfile_size;
     register_timestamp := JITCodeEntry.register_timestamp;
     Valid := JITCodeEntry.Valid |}.

Definition V2_CodeEntryT (h : Host) (a : ADDRT) (p : Packing) : CodeEntryT JITCodeEntryV2.t :=
  {| sizeof_entry := JITCodeEntryV2.sizeof h a p;
     decode_entry := JITCodeEntryV2.decode h a p;
     next_addr := JITCodeEntryV2.next_addr;
     prev_addr := JITCodeEntryV2.prev_addr;
     symfile_addr := JITCodeEntryV2.symfile_addr;
     symfile_size := JITCodeEntryV2.symfile_size;
     register_timestamp := JITCodeEntryV2.register_timestamp;
     Valid := JITCodeEntryV2.Valid |}.

(** The [using] declarations, selected by the [#if defined(...)] lines. *)
Definition JITCodeEntry32 (h : Host) : CodeEntryT JITCodeEntry.t :=
  match h with
  | x86_64 => V1_CodeEntryT h uint32_t Packed
  | _ => V1_CodeEntryT h uint32_t Natural
  end.

Definition JITCodeEntry32V2 (h : Host) : CodeEntryT JITCodeEntryV2.t :=
  match h with
  | x86_64 => V2_CodeEntryT h uint32_t Packed
  | _ => V2_CodeEntryT h uint32_t Natural
  end.

Definition JITCodeEntry64 (h : Host) : CodeEntryT JITCodeEntry.t :=
  V1_CodeEntryT h uint64_t Natural.

Definition JITCodeEntry64V2 (h : Host) : CodeEntryT JITCodeEntryV2.t :=
  match h with
  | i386 => V2_CodeEntryT h uint64_t Padded
  | _ => V2_CodeEntryT h uint64_t Natural
  end.

Definition sizeof_of {T} (c : CodeEntryT T) : Z := @sizeof_entry T c.

(** ** Reader-side data

    These types are declared in [JITDebugReader.h], which is not among
    the sources at hand; the functions below use them field by
    field. *)

(** Modelled from the spec: the kind of a descriptor snapshot. *)
Inductive DescriptorType := kDEX | kJIT.

Module Descriptor.
(** Modelled from the spec: a descriptor snapshot has a kind, a
    version, the action seqlock, the action timestamp and the address
    of the first entry. *)
Record t := mk {
  type : DescriptorType;
  version : Z;
  action_seqlock : Z;
  action_timestamp : Z;
  first_entry_addr : Z;
}.
Definition init : t := mk kDEX 0 0 0 0.
Definition with_type (ty : DescriptorType) (d : t) : t :=
  mk ty (version d) (action_seqlock d) (action_timestamp d) (first_entry_addr d).
End Descriptor.

Module CodeEntry.
(** Modelled from the spec: the new-entry record produced by the list
    walker (entry address, symfile address, symfile size, timestamp). *)
Record t := mk {
  addr : Z;
  symfile_addr : Z;
  symfile_size : Z;
  timestamp : Z;
}.
End CodeEntry.

Module ThreadMmap.
(** Modelled from the spec: one mapping of the target's memory map,
    with its half-open range, its page offset and its name. *)
Record t := mk {
  start_addr : Z;
  len : Z;
  pgoff : Z;
  prot : Z;
  name : string;
}.
End ThreadMmap.

Module ElfFileSymbol.
(** Modelled from the spec: a symbol reported by the ELF parser. *)
Record t := mk {
  vaddr : Z;
  len : Z;
  name : string;
}.
End ElfFileSymbol.

Module JITDebugInfo.
(** Modelled from the spec: the debug-info record handed to the
    consumer, in its JIT form or in its DEX form. *)
Inductive t :=
| JIT_DEBUG_JIT_CODE (pid timestamp jit_code_addr jit_code_len : Z)
                     (file_path : string) (file_offset : Z)
| JIT_DEBUG_DEX_FILE (pid timestamp dex_file_offset : Z) (file_path : string)
                     (extracted_dex_file_map : option ThreadMmap.t).

Definition timestamp (d : t) : Z :=
  match d with
  | JIT_DEBUG_JIT_CODE _ ts _ _ _ _ => ts
  | JIT_DEBUG_DEX_FILE _ ts _ _ _ => ts
  end.
End JITDebugInfo.

Module Process.
(** Modelled from the spec: the process record of the registry. *)
Record t := mk {
  pid : Z;
  initialized : bool;
  died : bool;
  is_64bit : bool;
  jit_descriptor_addr : Z;
  dex_descriptor_addr : Z;
  last_jit_descriptor : Descriptor.t;
  last_dex_descriptor : Descriptor.t;
  jit_zygote_cache_ranges_ : list (Z * Z);
}.
Definition set_died (b : bool) (p : t) : t :=
  mk (pid p) (initialized p) b (is_64bit p) (jit_descriptor_addr p) (dex_descriptor_addr p)
     (last_jit_descriptor p) (last_dex_descriptor p) (jit_zygote_cache_ranges_ p).
Definition set_location (is64 : bool) (jit dex : Z) (p : t) : t :=
  mk (pid p) (initialized p) (died p) is64 jit dex
     (last_jit_descriptor p) (last_dex_descriptor p) (jit_zygote_cache_ranges_ p).
Definition set_jit_zygote_cache_ranges_ (r : list (Z * Z)) (p : t) : t :=
  mk (pid p) (initialized p) (died p) (is_64bit p) (jit_descriptor_addr p)
     (dex_descriptor_addr p) (last_jit_descriptor p) (last_dex_descriptor p) r.
Definition set_initialized (b : bool) (p : t) : t :=
  mk (pid p) b (died p) (is_64bit p) (jit_descriptor_addr p) (dex_descriptor_addr p)
     (last_jit_descriptor p) (last_dex_descriptor p) (jit_zygote_cache_ranges_ p).
Definition set_last_jit_descriptor (d : Descriptor.t) (p : t) : t :=
  mk (pid p) (initialized p) (died p) (is_64bit p) (jit_descriptor_addr p)
     (dex_descriptor_addr p) d (last_dex_descriptor p) (jit_zygote_cache_ranges_ p).
Definition set_last_dex_descriptor (d : Descriptor.t) (p : t) : t :=
  mk (pid p) (initialized p) (died p) (is_64bit p) (jit_descriptor_addr p)
     (dex_descriptor_addr p) (last_jit_descriptor p) d (jit_zygote_cache_ranges_ p).
End Process.

(** Modelled from the spec: whether the scratch artifacts drop the
    symfiles. *)
Inductive SymFileOption := kDropSymFiles | kKeepSymFiles.

(** Modelled from the spec: immediate or ordered delivery. *)
Inductive SyncOption := kNoSync | kSyncWithRecords.

Module DescriptorsLocation.
(** Modelled from the spec: a value of the descriptors-location cache;
    a zero [jit_descriptor_addr] is a negative entry. *)
Record t := mk {
  is_64bit : bool;
  jit_descriptor_addr : Z;
  dex_descriptor_addr : Z;
}.
Definition init : t := mk false 0 0.
End DescriptorsLocation.

(** ** The outside world *)

Module ElfFile.
(** What the ELF reader reports about a library on disk. *)
Record t := mk {
  Is64Bit : bool;
  ReadMinExecutableVaddr : Z;
  ParseDynamicSymbols : list ElfFileSymbol.t;
}.
End ElfFile.

(** Memory of a target: a byte per mapped address. *)
Definition Mem : Type := Z -> option byte.

(** Everything the reader observes but does not own: the target, the
    file system, the ELF and apk utilities and the consumer.  The
    target runs while it is read, so its memory and its memory map are
    indexed by the instant of the observation.  [fopen_ok] and
    [fwrite_ok] tell whether creating a scratch file, and appending to
    it at an offset, succeed. *)
Record World := {
  target_mem : nat -> Z -> Mem;
  GetThreadMmapsInProcess : nat -> Z -> option (list ThreadMmap.t);
  ElfFile_Open : string -> option ElfFile.t;
  getpagesize : Z;
  IsValidElfFileMagic : list byte -> Z -> bool;
  ElfFile_ParseSymbols : list byte -> Z -> option (list ElfFileSymbol.t);
  ParseExtractedInMemoryPath : string -> option (string * string);
  GetUrlInApk : string -> string -> string;
  IsRegularFile : string -> bool;
  fopen_ok : string -> bool;
  fwrite_ok : string -> Z -> Z -> bool;
  debug_info_callback_ : list JITDebugInfo.t -> bool -> bool;
}.

Module TempSymFile.
(** Modelled from the spec: the scratch artifact.  It is created
    lazily, appended to, and remembers the offset before each append;
    when symfiles are dropped it keeps the offsets and discards the
    bytes. *)
Record t := mk {
  path_ : string;
  discard : bool;
  file_offset_ : Z;
  bytes : list byte;
  need_flush_ : bool;
}.
Definition Create (w : World) (path : string) (drop : bool) : option t :=
  if fopen_ok w path then Some (mk path drop 0 [] false) else None.
Definition GetPath (f : t) : string := path_ f.
Definition GetOffset (f : t) : Z := file_offset_ f.
Definition WriteEntry (w : World) (data : list byte) (size : Z) (f : t) : option t :=
  if fwrite_ok w (path_ f) (file_offset_ f) size
  then Some (mk (path_ f) (discard f) (u64 (file_offset_ f + size))
                (if discard f then bytes f else bytes f ++ take (Z.to_nat size) data)
                true)
  else None.
Definition Flush (f : t) : t :=
  mk (path_ f) (discard f) (file_offset_ f) (bytes f) false.
End TempSymFile.

(** ** Reader state *)

(** The members of [JITDebugReader] that the modelled functions touch,
    the [Process&] they work on, and two ghost fields: [now] counts the
    observations of the target made so far, [delivered] logs every
    invocation of the consumer callback. *)
Record State := mkState {
  now : nat;
  process : Process.t;
  app_symfile_ : option TempSymFile.t;
  zygote_symfile_ : option TempSymFile.t;
  debug_info_q_ : list JITDebugInfo.t;
  descriptors_location_cache_ : gmap string DescriptorsLocation.t;
  delivered : list (list JITDebugInfo.t * bool);
}.

Definition tick (s : State) : State :=
  mkState (S (now s)) (process s) (app_symfile_ s) (zygote_symfile_ s)
          (debug_info_q_ s) (descriptors_location_cache_ s) (delivered s).
Definition set_process (p : Process.t) (s : State) : State :=
  mkState (now s) p (app_symfile_ s) (zygote_symfile_ s) (debug_info_q_ s)
          (descriptors_location_cache_ s) (delivered s).
Definition set_app_symfile_ (f : option TempSymFile.t) (s : State) : State :=
  mkState (now s) (process s) f (zygote_symfile_ s) (debug_info_q_ s)
          (descriptors_location_cache_ s) (delivered s).
Definition set_zygote_symfile_ (f : option TempSymFile.t) (s : State) : State :=
  mkState (now s) (process s) (app_symfile_ s) f (debug_info_q_ s)
          (descriptors_location_cache_ s) (delivered s).
Definition set_debug_info_q_ (q : list JITDebugInfo.t) (s : State) : State :=
  mkState (now s) (process s) (app_symfile_ s) (zygote_symfile_ s) q
          (descriptors_location_cache_ s) (delivered s).
Definition set_descriptors_location_cache_ (c : gmap string DescriptorsLocation.t)
    (s : State) : State :=
  mkState (now s) (process s) (app_symfile_ s) (zygote_symfile_ s) (debug_info_q_ s)
          c (delivered s).
Definition log_callback (batch : list JITDebugInfo.t) (sync : bool) (s : State) : State :=
  mkState (now s) (process s) (app_symfile_ s) (zygote_symfile_ s) (debug_info_q_ s)
          (descriptors_location_cache_ s) (delivered s ++ [(batch, sync)]).

(** A state monad threads the reader through the calls. *)
Definition M (A : Type) : Type := State -> A * State.
Definition ret {A} (a : A) : M A := fun s => (a, s).
Definition bind {A B} (m : M A) (k : A -> M B) : M B :=
  fun s => let '(a, s') := m s in k a s'.
Definition modify (f : State -> State) : M unit := fun s => (tt, f s).

Notation "x <- c1 ;; c2" := (bind c1 (fun x => c2))
  (at level 100, c1 at next level, right associativity).
Notation "c1 ;;; c2" := (bind c1 (fun _ => c2))
  (at level 100, right associativity).

(** ** Constants *)

(** Modelled from the spec: [kMegabyte] comes from [utils.h]; the spec
    gives the cap as 1 MiB. *)
Definition kMegabyte : Z := 1024 * 1024.

(** [static constexpr size_t MAX_JIT_SYMFILE_SIZE = 1 * kMegabyte;] *)
Definition MAX_JIT_SYMFILE_SIZE : Z := 1 * kMegabyte.

(** ** Cross-process reads *)

(** The longest readable prefix of [n] bytes at [addr]. *)
Fixpoint read_bytes (m : Mem) (addr : Z) (n : nat) : list byte :=
  match n with
  | O => []
  | S n' =>
      match m addr with
      | Some b => b :: read_bytes m (addr + 1) n'
      | None => []
      end
  end.

(** The ranges are transferred in order; the transfer stops at the
    first byte that cannot be read. *)
Fixpoint transfer (m : Mem) (iovs : list (Z * Z)) : list (list byte) :=
  match iovs with
  | [] => []
  | (base, len) :: rest =>
      let bs := read_bytes m base (Z.to_nat len) in
      if Z.of_nat (length bs) <? len then [bs] else bs :: transfer m rest
  end.

Definition total_length (bufs : list (list byte)) : Z :=
  foldr (fun b acc => Z.of_nat (length b) + acc) 0 bufs.

(** [process_vm_readv]: the number of bytes transferred, or -1 when
    nothing could be transferred, and the contents of the local
    buffers. *)
Definition process_vm_readv (m : Mem) (remote_iov : list (Z * Z)) : Z * list (list byte) :=
  let bufs := transfer m remote_iov in
  let requested := foldr (fun io acc => snd io + acc) 0 remote_iov in
  let n := total_length bufs in
  (if (n =? 0) && (0 <? requested) then -1 else n, bufs).

(** [strncmp(a, b, n) == 0]: equal up to [n] bytes or up to a common
    terminator. *)
Fixpoint strncmp_eq (n : nat) (a b : list byte) : bool :=
  match n with
  | O => true
  | S n' =>
      let x := hd x00 a in
      let y := hd x00 b in
      Byte.eqb x y && (Byte.eqb x x00 || strncmp_eq n' (tl a) (tl b))
  end.

Definition bool_of_size (x : Z) : bool := negb (x =? 0).

(** [JITDescriptor<ADDRT>::Valid].  The conditional operator binds
    looser than [==], so each of the last two [return]s compares
    [sizeof_entry] with the value of [AndroidVersion() == 1] and
    converts the selected size to [bool]. *)
Definition JITDescriptor_Valid (h : Host) (a : ADDRT) (d : JITDescriptor.t) : bool :=
  let magic_str := JITDescriptor.magic d in
  if negb (JITDescriptor.version d =? 1)
     || negb (strncmp_eq 8 magic_str (list_byte_of_string "Android1")
              || strncmp_eq 8 magic_str (list_byte_of_string "Android2"))
  then false
  else if negb (JITDescriptor.sizeof h a =? JITDescriptor.sizeof_descriptor d)
  then false
  else if sizeof_ADDRT a =? 4
  then bool_of_size
         (if JITDescriptor.sizeof_entry d =? Z.b2z (JITDescriptor.AndroidVersion d =? 1)
          then sizeof_of (JITCodeEntry32 h)
          else sizeof_of (JITCodeEntry32V2 h))
  else bool_of_size
         (if JITDescriptor.sizeof_entry d =? Z.b2z (JITDescriptor.AndroidVersion d =? 1)
          then sizeof_of (JITCodeEntry64 h)
          else sizeof_of (JITCodeEntry64V2 h)).

(** The check the comparison was meant to make: [sizeof_entry] against
    the entry size of the declared version and bitness. *)
Definition expected_sizeof_entry (h : Host) (a : ADDRT) (d : JITDescriptor.t) : Z :=
  match a with
  | uint32_t => if JITDescriptor.AndroidVersion d =? 1
                then sizeof_of (JITCodeEntry32 h) else sizeof_of (JITCodeEntry32V2 h)
  | uint64_t => if JITDescriptor.AndroidVersion d =? 1
                then sizeof_of (JITCodeEntry64 h) else sizeof_of (JITCodeEntry64V2 h)
  end.

(** [JITDebugReader::ParseDescriptor] *)
Definition ParseDescriptor (h : Host) (a : ADDRT) (raw_descriptor : JITDescriptor.t)
    (descriptor : Descriptor.t) : option Descriptor.t :=
  if negb (JITDescriptor_Valid h a raw_descriptor) then None
  else Some (Descriptor.mk (Descriptor.type descriptor)
                           (JITDescriptor.AndroidVersion raw_descriptor)
                           (JITDescriptor.action_seqlock raw_descriptor)
                           (JITDescriptor.action_timestamp raw_descriptor)
                           (JITDescriptor.first_entry_addr raw_descriptor)).

(** Modelled from the spec: the constructor arguments of the reader,
    and the two fixed suffixes of the scratch paths,
    [kJITAppCacheFile] and [kJITZygoteCacheFile], which are declared in
    the header. *)
Record Config := {
  symfile_prefix_ : string;
  symfile_option_ : SymFileOption;
  sync_option_ : SyncOption;
  kJITAppCacheFile : string;
  kJITZygoteCacheFile : string;
}.

(** The local variables of the loop of [ReadNewCodeEntriesImpl], and
    what one iteration does: go on with new locals, or leave the
    function ([break] leaves it with [true]). *)
Record Walk := mkWalk {
  current_entry_addr : Z;
  prev_entry_addr : Z;
  entry_addr_set : gset Z;
  new_code_entries : list CodeEntry.t;
}.

Inductive WalkStep :=
| WalkNext (l : Walk)
| WalkDone (b : bool) (entries : list CodeEntry.t).

(** The scratch artifact [GetTempSymFile] hands out. *)
Inductive SymFileSel := AppSymFile | ZygoteSymFile.

Section Reader.

Context (h : Host) (w : World) (cfg : Config).

Definition to_uintptr (x : Z) : Z := x mod 2 ^ host_bits h.
Definition to_size_t (x : Z) : Z := x mod 2 ^ host_bits h.

(** [JITDebugReader::ReadRemoteMem]; the result is the local buffer
    when the call returns [true]. *)
Definition ReadRemoteMem (remote_addr size : Z) : M (option (list byte)) :=
  fun s =>
    let '(result, bufs) :=
      process_vm_readv (target_mem w (now s) (Process.pid (process s)))
                       [(to_uintptr remote_addr, to_size_t size)] in
    let s := tick s in
    if negb (to_size_t result =? size)
    then (None, set_process (Process.set_died true (process s)) s)
    else (Some (hd [] bufs), s).

(** [JITDebugReader::ReadDescriptorsImpl<DescriptorT>] *)
Definition ReadDescriptorsImpl (a : ADDRT) (jit_descriptor dex_descriptor : Descriptor.t)
    : M (option (Descriptor.t * Descriptor.t)) :=
  fun s =>
    let sz := JITDescriptor.sizeof h a in
    let '(result, bufs) :=
      process_vm_readv (target_mem w (now s) (Process.pid (process s)))
        [(to_uintptr (Process.jit_descriptor_addr (process s)), sz);
         (to_uintptr (Process.dex_descriptor_addr (process s)), sz)] in
    let s := tick s in
    if negb (to_size_t result =? sz * 2)
    then (None, set_process (Process.set_died true (process s)) s)
    else
      let raw_jit_descriptor := JITDescriptor.decode h a (nth 0 bufs []) in
      let raw_dex_descriptor := JITDescriptor.decode h a (nth 1 bufs []) in
      match ParseDescriptor h a raw_jit_descriptor jit_descriptor with
      | None => (None, s)
      | Some jit =>
          match ParseDescriptor h a raw_dex_descriptor dex_descriptor with
          | None => (None, s)
          | Some dex =>
              (Some (Descriptor.with_type kJIT jit, Descriptor.with_type kDEX dex), s)
          end
      end.

(** [JITDebugReader::ReadDescriptors] *)
Definition ReadDescriptors (jit_descriptor dex_descriptor : Descriptor.t)
    : M (option (Descriptor.t * Descriptor.t)) :=
  fun s =>
    if Process.is_64bit (process s)
    then ReadDescriptorsImpl uint64_t jit_descriptor dex_descriptor s
    else ReadDescriptorsImpl uint32_t jit_descriptor dex_descriptor s.

(** One iteration of the loop of
    [JITDebugReader::ReadNewCodeEntriesImpl<CodeEntryT>], entered with
    [i < read_entry_limit]. *)
Definition ReadNewCodeEntriesImpl_body {T} `{CodeEntryT T}
    (last_action_timestamp : Z) (l : Walk) : M WalkStep :=
  if current_entry_addr l =? 0 then ret (WalkDone true (new_code_entries l))
  else if bool_decide (current_entry_addr l ∈ entry_addr_set l)
  then ret (WalkDone false (new_code_entries l))
  else
    r <- ReadRemoteMem (current_entry_addr l) sizeof_entry ;;
    match r with
    | None => ret (WalkDone false (new_code_entries l))
    | Some bs =>
        let entry := decode_entry bs in
        if negb (prev_addr entry =? prev_entry_addr l) || negb (Valid entry)
        then ret (WalkDone false (new_code_entries l))
        else if register_timestamp entry <=? last_action_timestamp
        then ret (WalkDone true (new_code_entries l))
        else
          let new_code_entries :=
            if 0 <? symfile_size entry
            then new_code_entries l ++
                   [CodeEntry.mk (current_entry_addr l) (symfile_addr entry)
                                 (symfile_size entry) (register_timestamp entry)]
            else new_code_entries l in
          ret (WalkNext (mkWalk (next_addr entry) (current_entry_addr l)
                                ({[current_entry_addr l]} ∪ entry_addr_set l)
                                new_code_entries))
    end.

(** The loop itself: [n] is the number of iterations the loop counter
    still allows. *)
Fixpoint ReadNewCodeEntriesImpl_loop {T} `{CodeEntryT T} (n : nat)
    (last_action_timestamp : Z) (l : Walk) : M (bool * list CodeEntry.t) :=
  match n with
  | O => ret (true, new_code_entries l)
  | S n' =>
      r <- ReadNewCodeEntriesImpl_body last_action_timestamp l ;;
      match r with
      | WalkNext l' => ReadNewCodeEntriesImpl_loop n' last_action_timestamp l'
      | WalkDone b entries => ret (b, entries)
      end
  end.

Definition ReadNewCodeEntriesImpl {T} `{CodeEntryT T} (descriptor : Descriptor.t)
    (last_action_timestamp read_entry_limit : Z) (new_code_entries : list CodeEntry.t)
    : M (bool * list CodeEntry.t) :=
  ReadNewCodeEntriesImpl_loop (Z.to_nat read_entry_limit) last_action_timestamp
    (mkWalk (Descriptor.first_entry_addr descriptor) 0 ∅ new_code_entries).

(** [JITDebugReader::ReadNewCodeEntries] *)
Definition ReadNewCodeEntries (descriptor : Descriptor.t)
    (last_action_timestamp read_entry_limit : Z) (new_code_entries : list CodeEntry.t)
    : M (bool * list CodeEntry.t) :=
  fun s =>
    if Descriptor.version descriptor =? 1 then
      if Process.is_64bit (process s)
      then ReadNewCodeEntriesImpl (H := JITCodeEntry64 h) descriptor last_action_timestamp
             read_entry_limit new_code_entries s
      else ReadNewCodeEntriesImpl (H := JITCodeEntry32 h) descriptor last_action_timestamp
             read_entry_limit new_code_entries s
    else if Descriptor.version descriptor =? 2 then
      if Process.is_64bit (process s)
      then ReadNewCodeEntriesImpl (H := JITCodeEntry64V2 h) descriptor last_action_timestamp
             read_entry_limit new_code_entries s
      else ReadNewCodeEntriesImpl (H := JITCodeEntry32V2 h) descriptor last_action_timestamp
             read_entry_limit new_code_entries s
    else (false, new_code_entries, s).

Definition drop_symfiles : bool :=
  match symfile_option_ cfg with kDropSymFiles => true | _ => false end.

Definition get_symfile (sel : SymFileSel) (s : State) : option TempSymFile.t :=
  match sel with AppSymFile => app_symfile_ s | ZygoteSymFile => zygote_symfile_ s end.

Definition set_symfile (sel : SymFileSel) (f : option TempSymFile.t) (s : State) : State :=
  match sel with
  | AppSymFile => set_app_symfile_ f s
  | ZygoteSymFile => set_zygote_symfile_ f s
  end.

Definition in_zygote_cache (ranges : list (Z * Z)) (symfile_addr : Z) : bool :=
  existsb (fun range => (range.1 <=? symfile_addr) && (symfile_addr <? range.2)) ranges.

(** [JITDebugReader::GetTempSymFile]; [None] is the null pointer. *)
Definition GetTempSymFile (jit_entry : CodeEntry.t) : M (option SymFileSel) :=
  fun s =>
    let is_zygote :=
      in_zygote_cache (Process.jit_zygote_cache_ranges_ (process s))
                      (CodeEntry.symfile_addr jit_entry) in
    let sel := if is_zygote then ZygoteSymFile else AppSymFile in
    let suffix := if is_zygote then kJITZygoteCacheFile cfg else kJITAppCacheFile cfg in
    let s :=
      match get_symfile sel s with
      | Some _ => s
      | None =>
          let path := symfile_prefix_ cfg +:+ "_" +:+ suffix in
          set_symfile sel (TempSymFile.Create w path drop_symfiles) s
      end in
    (match get_symfile sel s with Some _ => Some sel | None => None end, s).

(** The symbol callback of [ReadJITCodeDebugInfo], applied to every
    symbol [ParseSymbols] reports. *)
Definition location_in_file (file_offset size : Z) : string :=
  ":" +:+ pretty file_offset +:+ "-" +:+ pretty (u64 (file_offset + size)).

Fixpoint jit_symbols (pid : Z) (jit_entry : CodeEntry.t) (path : string) (file_offset : Z)
    (symbols : list ElfFileSymbol.t) : list JITDebugInfo.t :=
  match symbols with
  | [] => []
  | symbol :: rest =>
      if ElfFileSymbol.len symbol =? 0
      then jit_symbols pid jit_entry path file_offset rest
      else JITDebugInfo.JIT_DEBUG_JIT_CODE pid (CodeEntry.timestamp jit_entry)
             (ElfFileSymbol.vaddr symbol) (ElfFileSymbol.len symbol)
             (path +:+ location_in_file file_offset (CodeEntry.symfile_size jit_entry))
             file_offset
           :: jit_symbols pid jit_entry path file_offset rest
  end.

(** One iteration of the loop of [ReadJITCodeDebugInfo]: [Some] is the
    contents of [*debug_info] when the iteration ends or [continue]s,
    [None] is [return false]. *)
Definition ReadJITCodeDebugInfo_body (jit_entry : CodeEntry.t)
    (debug_info : list JITDebugInfo.t) : M (option (list JITDebugInfo.t)) :=
  let size := CodeEntry.symfile_size jit_entry in
  if MAX_JIT_SYMFILE_SIZE <? size then ret (Some debug_info)
  else
    r <- ReadRemoteMem (CodeEntry.symfile_addr jit_entry) size ;;
    match r with
    | None => ret (Some debug_info)
    | Some data =>
        if negb (IsValidElfFileMagic w data size) then ret (Some debug_info)
        else
          symfile <- GetTempSymFile jit_entry ;;
          fun s =>
            match symfile ≫= (fun sel => get_symfile sel s ≫= (fun f => Some (sel, f))) with
            | None => (None, s)
            | Some (sel, f) =>
                let file_offset := TempSymFile.GetOffset f in
                match TempSymFile.WriteEntry w data size f with
                | None => (None, s)
                | Some f' =>
                    let s := set_symfile sel (Some f') s in
                    let symbols :=
                      match ElfFile_ParseSymbols w data size with
                      | Some syms => syms
                      | None => []
                      end in
                    (Some (debug_info ++
                             jit_symbols (Process.pid (process s)) jit_entry
                               (TempSymFile.GetPath f') file_offset symbols), s)
                end
            end
    end.

Fixpoint ReadJITCodeDebugInfo_loop (jit_entries : list CodeEntry.t)
    (debug_info : list JITDebugInfo.t) : M (bool * list JITDebugInfo.t) :=
  match jit_entries with
  | [] => ret (true, debug_info)
  | jit_entry :: rest =>
      r <- ReadJITCodeDebugInfo_body jit_entry debug_info ;;
      match r with
      | Some debug_info => ReadJITCodeDebugInfo_loop rest debug_info
      | None => ret (false, debug_info)
      end
  end.

Definition flush_symfiles (s : State) : State :=
  set_zygote_symfile_ (TempSymFile.Flush <$> zygote_symfile_ s)
    (set_app_symfile_ (TempSymFile.Flush <$> app_symfile_ s) s).

(** [JITDebugReader::ReadJITCodeDebugInfo]; the list is the contents of
    [*debug_info] when the function returns, whatever it returns. *)
Definition ReadJITCodeDebugInfo (jit_entries : list CodeEntry.t)
    (debug_info : list JITDebugInfo.t) : M (bool * list JITDebugInfo.t) :=
  r <- ReadJITCodeDebugInfo_loop jit_entries debug_info ;;
  if r.1 then modify flush_symfiles ;;; ret r else ret r.

(** [std::lower_bound] over a vector: the binary search of the standard
    library, on indices. *)
Fixpoint lower_bound_loop {A B} (comp : A -> B -> bool) (v : list A) (value : B)
    (fuel first len : nat) : nat :=
  match fuel with
  | O => first
  | S fuel' =>
      if (len =? 0)%nat then first
      else
        let half := (len / 2)%nat in
        let mid := (first + half)%nat in
        match v !! mid with
        | Some x =>
            if comp x value
            then lower_bound_loop comp v value fuel' (mid + 1)%nat (len - half - 1)%nat
            else lower_bound_loop comp v value fuel' first half
        | None => first
        end
  end.

Definition lower_bound {A B} (comp : A -> B -> bool) (v : list A) (value : B) : nat :=
  lower_bound_loop comp v value (length v) 0%nat (length v).

(** [auto comp = [](const ThreadMmap& map, uint64_t addr) { return map.start_addr <= addr; }] *)
Definition comp (map : ThreadMmap.t) (addr : Z) : bool := ThreadMmap.start_addr map <=? addr.

(** One iteration of the loop of [ReadDexFileDebugInfo]: the record it
    emplaces, or [None] when it [continue]s. *)
Definition ReadDexFileDebugInfo_body (pid : Z) (thread_mmaps : list ThreadMmap.t)
    (dex_entry : CodeEntry.t) : option JITDebugInfo.t :=
  let it := lower_bound comp thread_mmaps (CodeEntry.symfile_addr dex_entry) in
  if (it =? 0)%nat then None
  else
    match thread_mmaps !! (it - 1)%nat with
    | None => None
    | Some map =>
        if u64 (ThreadMmap.start_addr map + ThreadMmap.len map)
           <? u64 (CodeEntry.symfile_addr dex_entry + CodeEntry.symfile_size dex_entry)
        then None
        else
          let dex_file_offset :=
            u64 (u64 (CodeEntry.symfile_addr dex_entry - ThreadMmap.start_addr map)
                 + ThreadMmap.pgoff map) in
          match ParseExtractedInMemoryPath w (ThreadMmap.name map) with
          | Some (zip_path, entry_path) =>
              Some (JITDebugInfo.JIT_DEBUG_DEX_FILE pid (CodeEntry.timestamp dex_entry)
                      dex_file_offset (GetUrlInApk w zip_path entry_path) (Some map))
          | None =>
              if negb (IsRegularFile w (ThreadMmap.name map)) then None
              else Some (JITDebugInfo.JIT_DEBUG_DEX_FILE pid (CodeEntry.timestamp dex_entry)
                           dex_file_offset (ThreadMmap.name map) None)
          end
    end.

Fixpoint ReadDexFileDebugInfo_loop (pid : Z) (thread_mmaps : list ThreadMmap.t)
    (dex_entries : list CodeEntry.t) (debug_info : list JITDebugInfo.t)
    : list JITDebugInfo.t :=
  match dex_entries with
  | [] => debug_info
  | dex_entry :: rest =>
      match ReadDexFileDebugInfo_body pid thread_mmaps dex_entry with
      | None => ReadDexFileDebugInfo_loop pid thread_mmaps rest debug_info
      | Some info => ReadDexFileDebugInfo_loop pid thread_mmaps rest (debug_info ++ [info])
      end
  end.

(** [JITDebugReader::ReadDexFileDebugInfo] *)
Definition ReadDexFileDebugInfo (dex_entries : list CodeEntry.t)
    (debug_info : list JITDebugInfo.t) : M (list JITDebugInfo.t) :=
  fun s =>
    let maps := GetThreadMmapsInProcess w (now s) (Process.pid (process s)) in
    let s := tick s in
    match maps with
    | None => (debug_info, set_process (Process.set_died true (process s)) s)
    | Some thread_mmaps =>
        (ReadDexFileDebugInfo_loop (Process.pid (process s)) thread_mmaps dex_entries
           debug_info, s)
    end.

(** Modelled from the spec: [debug_info_q_] is a min-heap keyed by
    timestamp (the comparator is declared in the header).  The heap is
    kept as the collection of its elements; [pq_top] is an element of
    least timestamp and [pq_pop] removes that element. *)
Fixpoint pq_top (q : list JITDebugInfo.t) : option JITDebugInfo.t :=
  match q with
  | [] => None
  | x :: q' =>
      match pq_top q' with
      | Some y => if JITDebugInfo.timestamp y <? JITDebugInfo.timestamp x then Some y else Some x
      | None => Some x
      end
  end.

Fixpoint pq_pop (q : list JITDebugInfo.t) : list JITDebugInfo.t :=
  match q with
  | [] => []
  | x :: q' =>
      match pq_top q' with
      | Some y => if JITDebugInfo.timestamp y <? JITDebugInfo.timestamp x then x :: pq_pop q' else q'
      | None => q'
      end
  end.

Definition pq_push (x : JITDebugInfo.t) (q : list JITDebugInfo.t) : list JITDebugInfo.t :=
  q ++ [x].

(** [JITDebugReader::AddDebugInfo] *)
Definition AddDebugInfo (debug_info : list JITDebugInfo.t) (sync_kernel_records : bool)
    : M bool :=
  fun s =>
    match debug_info with
    | [] => (true, s)
    | _ :: _ =>
        match sync_option_ cfg with
        | kSyncWithRecords =>
            (true, set_debug_info_q_
                     (foldl (fun q info => pq_push info q) (debug_info_q_ s) debug_info) s)
        | _ =>
            (debug_info_callback_ w debug_info sync_kernel_records,
             log_callback debug_info sync_kernel_records s)
        end
    end.

(** The [while] loop of [FlushDebugInfo]; every iteration pops one
    element, so [length q] iterations are enough. *)
Fixpoint FlushDebugInfo_loop (fuel : nat) (timestamp : Z) (q debug_info : list JITDebugInfo.t)
    : list JITDebugInfo.t * list JITDebugInfo.t :=
  match fuel with
  | O => (q, debug_info)
  | S fuel' =>
      match pq_top q with
      | Some top =>
          if JITDebugInfo.timestamp top <? timestamp
          then FlushDebugInfo_loop fuel' timestamp (pq_pop q) (debug_info ++ [top])
          else (q, debug_info)
      | None => (q, debug_info)
      end
  end.

(** [JITDebugReader::FlushDebugInfo] *)
Definition FlushDebugInfo (timestamp : Z) : M bool :=
  fun s =>
    match sync_option_ cfg with
    | kSyncWithRecords =>
        match pq_top (debug_info_q_ s) with
        | Some top =>
            if JITDebugInfo.timestamp top <? timestamp
            then
              let '(q, debug_info) :=
                FlushDebugInfo_loop (length (debug_info_q_ s)) timestamp (debug_info_q_ s) [] in
              (debug_info_callback_ w debug_info false,
               log_callback debug_info false (set_debug_info_q_ q s))
            else (true, s)
        | None => (true, s)
        end
    | _ => (true, s)
    end.

(** [JITDebugReader::IsDescriptorChanged] *)
Definition IsDescriptorChanged (prev_descriptor : Descriptor.t) : M bool :=
  r <- ReadDescriptors Descriptor.init Descriptor.init ;;
  match r with
  | None => ret true
  | Some (tmp_jit_descriptor, tmp_dex_descriptor) =>
      match Descriptor.type prev_descriptor with
      | kJIT => ret (negb (Descriptor.action_seqlock prev_descriptor
                           =? Descriptor.action_seqlock tmp_jit_descriptor))
      | kDEX => ret (negb (Descriptor.action_seqlock prev_descriptor
                           =? Descriptor.action_seqlock tmp_dex_descriptor))
      end
  end.

Definition old_descriptor (type : DescriptorType) (p : Process.t) : Descriptor.t :=
  match type with
  | kJIT => Process.last_jit_descriptor p
  | kDEX => Process.last_dex_descriptor p
  end.

Definition set_old_descriptor (type : DescriptorType) (d : Descriptor.t) (p : Process.t)
    : Process.t :=
  match type with
  | kJIT => Process.set_last_jit_descriptor d p
  | kDEX => Process.set_last_dex_descriptor d p
  end.

(** [JITDebugReader::ReadDebugInfo]; the list is the contents of
    [*debug_info] when the function returns. *)
Definition ReadDebugInfo (new_descriptor : Descriptor.t) (debug_info : list JITDebugInfo.t)
    : M (bool * list JITDebugInfo.t) :=
  fun s =>
    let type := Descriptor.type new_descriptor in
    let old := old_descriptor type (process s) in
    let has_update :=
      negb (Descriptor.action_seqlock new_descriptor =? Descriptor.action_seqlock old)
      && (Z.land (Descriptor.action_seqlock new_descriptor) 1 =? 0) in
    if negb has_update then (true, debug_info, s)
    else
      let read_entry_limit :=
        u32 (Descriptor.action_seqlock new_descriptor - Descriptor.action_seqlock old) / 2 in
      let '(ok, new_entries, s) :=
        ReadNewCodeEntries new_descriptor (Descriptor.action_timestamp old)
          read_entry_limit [] s in
      if negb ok then (true, debug_info, s)
      else
        let '(changed, s) := IsDescriptorChanged new_descriptor s in
        if changed then (true, debug_info, s)
        else
          let '(ok, debug_info, s) :=
            match new_entries with
            | [] => (true, debug_info, s)
            | _ :: _ =>
                match type with
                | kJIT => ReadJITCodeDebugInfo new_entries debug_info s
                | kDEX =>
                    let '(debug_info, s) := ReadDexFileDebugInfo new_entries debug_info s in
                    (true, debug_info, s)
                end
            end in
          if negb ok then (false, debug_info, s)
          else (true, debug_info, set_process (set_old_descriptor type new_descriptor (process s)) s).

(** [android::base::StartsWith] and [android::base::EndsWith] *)
Definition StartsWith (s prefix : string) : bool := String.prefix prefix s.
Definition EndsWith (s suffix : string) : bool :=
  String.prefix (String.rev suffix) (String.rev s).

(** [static bool IsArtLib(const std::string& filename)] *)
Definition IsArtLib (filename : string) : bool :=
  EndsWith filename "libart.so" || EndsWith filename "libartd.so".

Definition kJITZygoteCacheMmapPrefix : string := "/memfd:jit-zygote-cache".
Definition PROT_EXEC : Z := 4.

(** The symbol callback of [GetDescriptorsLocation], applied to every
    dynamic symbol in turn. *)
Fixpoint find_descriptors (aligned_segment_vaddr : Z) (symbols : list ElfFileSymbol.t)
    (jit_addr dex_addr : Z) : Z * Z :=
  match symbols with
  | [] => (jit_addr, dex_addr)
  | symbol :: rest =>
      if String.eqb (ElfFileSymbol.name symbol) "__jit_debug_descriptor"
      then find_descriptors aligned_segment_vaddr rest
             (u64 (ElfFileSymbol.vaddr symbol - aligned_segment_vaddr)) dex_addr
      else if String.eqb (ElfFileSymbol.name symbol) "__dex_debug_descriptor"
      then find_descriptors aligned_segment_vaddr rest jit_addr
             (u64 (ElfFileSymbol.vaddr symbol - aligned_segment_vaddr))
      else find_descriptors aligned_segment_vaddr rest jit_addr dex_addr
  end.

(** [JITDebugReader::GetDescriptorsLocation]; [None] is the null
    pointer. *)
Definition GetDescriptorsLocation (art_lib_path : string) : M (option DescriptorsLocation.t) :=
  fun s =>
    match descriptors_location_cache_ s !! art_lib_path with
    | Some location =>
        (if DescriptorsLocation.jit_descriptor_addr location =? 0 then None else Some location, s)
    | None =>
        let s :=
          set_descriptors_location_cache_
            (<[art_lib_path := DescriptorsLocation.init]> (descriptors_location_cache_ s)) s in
        match ElfFile_Open w art_lib_path with
        | None => (None, s)
        | Some elf =>
            let kPageSize := to_size_t (getpagesize w) in
            let kPageMask := to_size_t (Z.lnot (to_size_t (kPageSize - 1))) in
            let min_vaddr_in_file := ElfFile.ReadMinExecutableVaddr elf in
            let aligned_segment_vaddr := Z.land min_vaddr_in_file kPageMask in
            let '(jit_addr, dex_addr) :=
              find_descriptors aligned_segment_vaddr (ElfFile.ParseDynamicSymbols elf) 0 0 in
            if (jit_addr =? 0) || (dex_addr =? 0) then (None, s)
            else
              let location := DescriptorsLocation.mk (ElfFile.Is64Bit elf) jit_addr dex_addr in
              (Some location,
               set_descriptors_location_cache_
                 (<[art_lib_path := location]> (descriptors_location_cache_ s)) s)
        end
    end.

Fixpoint zygote_cache_ranges (thread_mmaps : list ThreadMmap.t) : list (Z * Z) :=
  match thread_mmaps with
  | [] => []
  | map :: rest =>
      if StartsWith (ThreadMmap.name map) kJITZygoteCacheMmapPrefix
      then (ThreadMmap.start_addr map, u64 (ThreadMmap.start_addr map + ThreadMmap.len map))
           :: zygote_cache_ranges rest
      else zygote_cache_ranges rest
  end.

(** [JITDebugReader::InitializeProcess] *)
Definition InitializeProcess : M bool :=
  fun s =>
    let maps := GetThreadMmapsInProcess w (now s) (Process.pid (process s)) in
    let s := tick s in
    match maps with
    | None => (false, set_process (Process.set_died true (process s)) s)
    | Some thread_mmaps =>
        match List.find (fun map => negb (Z.land (ThreadMmap.prot map) PROT_EXEC =? 0)
                                    && IsArtLib (ThreadMmap.name map)) thread_mmaps with
        | None => (false, s)
        | Some map =>
            let art_lib_path := ThreadMmap.name map in
            let min_vaddr_in_memory := ThreadMmap.start_addr map in
            if (String.length art_lib_path =? 0)%nat then (false, s)
            else
              let '(location, s) := GetDescriptorsLocation art_lib_path s in
              match location with
              | None => (false, s)
              | Some location =>
                  let p := process s in
                  let p :=
                    Process.set_location (DescriptorsLocation.is_64bit location)
                      (u64 (DescriptorsLocation.jit_descriptor_addr location + min_vaddr_in_memory))
                      (u64 (DescriptorsLocation.dex_descriptor_addr location + min_vaddr_in_memory))
                      p in
                  let p :=
                    Process.set_jit_zygote_cache_ranges_
                      (Process.jit_zygote_cache_ranges_ p ++ zygote_cache_ranges thread_mmaps) p in
                  (true, set_process (Process.set_initialized true p) s)
              end
        end
    end.

(** [JITDebugReader::ReadProcess], the overload working on a [Process&]. *)
Definition ReadProcess (debug_info : list JITDebugInfo.t) : M (bool * list JITDebugInfo.t) :=
  fun s =>
    if Process.died (process s) then (true, debug_info, s)
    else
      let '(ready, s) :=
        if Process.initialized (process s) then (true, s) else InitializeProcess s in
      if negb ready then (true, debug_info, s)
      else
        match ReadDescriptors Descriptor.init Descriptor.init s with
        | (None, s) => (true, debug_info, s)
        | (Some (jit_descriptor, dex_descriptor), s) =>
            if (Descriptor.action_seqlock jit_descriptor
                =? Descriptor.action_seqlock (Process.last_jit_descriptor (process s)))
               && (Descriptor.action_seqlock dex_descriptor
                   =? Descriptor.action_seqlock (Process.last_dex_descriptor (process s)))
            then (true, debug_info, s)
            else
              let '(ok, debug_info, s) := ReadDebugInfo jit_descriptor debug_info s in
              if negb ok then (false, debug_info, s)
              else ReadDebugInfo dex_descriptor debug_info s
        end.

(** The configurations of a walk: the iterations the loop counter still
    allows, the locals and the reader.  [walk_step] relates a
    configuration to the next one when the iteration in between goes
    on. *)
Definition WalkConf : Type := nat * Walk * State.

Inductive walk_step {T} `{CodeEntryT T} (last_action_timestamp : Z)
    : WalkConf -> WalkConf -> Prop :=
| walk_step_next n l s l' s' :
    ReadNewCodeEntriesImpl_body last_action_timestamp l s = (WalkNext l', s') ->
    walk_step last_action_timestamp (S n, l, s) (n, l', s').

(** The last committed descriptors of the process being read. *)
Definition last_descriptors (s : State) : Descriptor.t * Descriptor.t :=
  (Process.last_jit_descriptor (process s), Process.last_dex_descriptor (process s)).

(** The action seqlock, of the given kind, that a re-read of the two
    descriptors reports. *)
Definition reread_seqlock (type : DescriptorType)
    (r : option (Descriptor.t * Descriptor.t)) : option Z :=
  match r with
  | None => None
  | Some (jit_descriptor, dex_descriptor) =>
      Some (Descriptor.action_seqlock
              (match type with kJIT => jit_descriptor | kDEX => dex_descriptor end))
  end.

(** A stream of calls into the delivery queue. *)
Inductive Event :=
| EvAdd (debug_info : list JITDebugInfo.t) (sync_kernel_records : bool)
| EvFlush (timestamp : Z).

Definition run_event (ev : Event) : M bool :=
  match ev with
  | EvAdd debug_info sync_kernel_records => AddDebugInfo debug_info sync_kernel_records
  | EvFlush timestamp => FlushDebugInfo timestamp
  end.

Fixpoint run_events (evs : list Event) (s : State) : State :=
  match evs with
  | [] => s
  | ev :: rest => run_events rest (run_event ev s).2
  end.

End Reader.

(** The memory map is sorted by start address, as the sorted search of
    [ReadDexFileDebugInfo] needs it. *)
Fixpoint sorted_by_start (maps : list ThreadMmap.t) : bool :=
  match maps with
  | [] => true
  | map :: rest =>
      forallb (fun map' => ThreadMmap.start_addr map <=? ThreadMmap.start_addr map') rest
      && sorted_by_start rest
  end.

(** A mapping whose fields are 64-bit values and whose address range
    and file range do not wrap around. *)
Definition mapping_in_range (map : ThreadMmap.t) : bool :=
  (0 <=? ThreadMmap.start_addr map) && (0 <=? ThreadMmap.len map)
  && (0 <=? ThreadMmap.pgoff map)
  && (ThreadMmap.start_addr map + ThreadMmap.len map <? 2 ^ 64)
  && (ThreadMmap.pgoff map + ThreadMmap.len map <? 2 ^ 64).

(** The timestamps handed to the consumer, in the order of delivery. *)
Definition delivered_timestamps (s : State) : list Z :=
  JITDebugInfo.timestamp <$> concat (fst <$> delivered s).

(** No record is queued with a timestamp below a watermark that was
    flushed before; [high] is the largest watermark so far. *)
Fixpoint timely (high : Z) (evs : list Event) : Prop :=
  match evs with
  | [] => True
  | EvAdd debug_info _ :: rest =>
      Forall (fun info => high <= JITDebugInfo.timestamp info) debug_info /\ timely high rest
  | EvFlush timestamp :: rest => timely (Z.max high timestamp) rest
  end.

(** ** Notions used to state the properties *)

(** Everything in the reader that observing the target leaves alone:
    a read advances the clock and may mark the process died, and
    changes nothing else. *)
Definition frame (s : State) :=
  (app_symfile_ s, zygote_symfile_ s, debug_info_q_ s, descriptors_location_cache_ s,
   delivered s,
   (Process.pid (process s), Process.initialized (process s), Process.is_64bit (process s),
    Process.jit_descriptor_addr (process s), Process.dex_descriptor_addr (process s),
    Process.last_jit_descriptor (process s), Process.last_dex_descriptor (process s),
    Process.jit_zygote_cache_ranges_ (process s))).

Definition observes (s s' : State) : Prop :=
  frame s' = frame s ∧ (now s ≤ now s')%nat.

(** Whether the element at index [i] of a vector compares below
    [value]. *)
Definition below {A B} (cmp : A -> B -> bool) (v : list A) (value : B) (i : nat) : bool :=
  match v !! i with
  | Some x => cmp x value
  | None => false
  end.

(** The mapping [ReadDexFileDebugInfo] chooses for an entry: the last
    one, in a sorted memory map, that starts at or below the symfile
    address, provided its range holds the whole symfile. *)
Definition chosen_mapping (thread_mmaps : list ThreadMmap.t) (dex_entry : CodeEntry.t)
    (i : nat) (map : ThreadMmap.t) : Prop :=
  thread_mmaps !! i = Some map ∧
  ThreadMmap.start_addr map ≤ CodeEntry.symfile_addr dex_entry ∧
  CodeEntry.symfile_addr dex_entry + CodeEntry.symfile_size dex_entry
    ≤ ThreadMmap.start_addr map + ThreadMmap.len map ∧
  (∀ j map', thread_mmaps !! j = Some map' →
     ThreadMmap.start_addr map' ≤ CodeEntry.symfile_addr dex_entry → (j ≤ i)%nat).

(** What a flush adds to the log of the callback. *)
Definition batch_log (batch : list JITDebugInfo.t) : list (list JITDebugInfo.t * bool) :=
  match batch with
  | [] => []
  | _ :: _ => [(batch, false)]
  end.

(** What ordered delivery maintains, with [high] the largest watermark
    flushed so far: pending records are at or above [high], delivered
    ones are below it and in non-decreasing order. *)
Definition ordered_inv (high : Z) (s : State) : Prop :=
  Forall (λ x, high ≤ JITDebugInfo.timestamp x) (debug_info_q_ s) ∧
  Forall (λ t, t < high) (delivered_timestamps s) ∧
  StronglySorted Z.le (delivered_timestamps s).

(** ** Building target memories for concrete runs *)

Definition byte_of_Z (x : Z) : byte :=
  match Byte.of_N (Z.to_N (x mod 256)) with
  | Some b => b
  | None => x00
  end.

Fixpoint le_encode (n : nat) (x : Z) : list byte :=
  match n with
  | O => []
  | S n' => byte_of_Z x :: le_encode n' (x / 256)
  end.

Definition blit (off : Z) (bs buf : list byte) : list byte :=
  take (Z.to_nat off) buf ++ bs ++ drop (Z.to_nat off + length bs) buf.

Fixpoint encode_members (offs : list Z) (vals : list (list byte)) (buf : list byte)
    : list byte :=
  match offs, vals with
  | off :: offs', v :: vals' => encode_members offs' vals' (blit off v buf)
  | _, _ => buf
  end.

Definition encode_struct (packed : bool) (ms : list member) (vals : list (list byte))
    : list byte :=
  encode_members (fst (offsets packed ms 0)) vals
    (replicate (Z.to_nat (struct_size packed ms)) x00).

Definition encode_addr (a : ADDRT) (x : Z) : list byte :=
  le_encode (Z.to_nat (sizeof_ADDRT a)) x.

Definition encode_descriptor (h : Host) (a : ADDRT) (d : JITDescriptor.t) : list byte :=
  encode_struct false (JITDescriptor.members h a)
    [le_encode 4 (JITDescriptor.version d);
     le_encode 4 (JITDescriptor.action_flag d);
     encode_addr a (JITDescriptor.relevant_entry_addr d);
     encode_addr a (JITDescriptor.first_entry_addr d);
     JITDescriptor.magic d;
     le_encode 4 (JITDescriptor.flags d);
     le_encode 4 (JITDescriptor.sizeof_descriptor d);
     le_encode 4 (JITDescriptor.sizeof_entry d);
     le_encode 4 (JITDescriptor.action_seqlock d);
     le_encode 8 (JITDescriptor.action_timestamp d)].

Definition encode_entry (h : Host) (a : ADDRT) (p : Packing) (e : JITCodeEntry.t)
    : list byte :=
  encode_struct (JITCodeEntry.is_packed p) (JITCodeEntry.members h a)
    [encode_addr a (JITCodeEntry.next_addr e);
     encode_addr a (JITCodeEntry.prev_addr e);
     encode_addr a (JITCodeEntry.symfile_addr e);
     le_encode 8 (JITCodeEntry.symfile_size e);
     le_encode 8 (JITCodeEntry.register_timestamp e)].

Definition encode_entry_v2 (h : Host) (a : ADDRT) (p : Packing) (e : JITCodeEntryV2.t)
    : list byte :=
  encode_struct (JITCodeEntryV2.is_packed p) (JITCodeEntryV2.members h a p)
    [encode_addr a (JITCodeEntryV2.next_addr e);
     encode_addr a (JITCodeEntryV2.prev_addr e);
     encode_addr a (JITCodeEntryV2.symfile_addr e);
     le_encode 8 (JITCodeEntryV2.symfile_size e);
     le_encode 8 (JITCodeEntryV2.register_timestamp e);
     le_encode 4 (JITCodeEntryV2.seqlock e)].

(** A memory made of disjoint chunks; everything else is unmapped. *)
Fixpoint mem_of_chunks (chunks : list (Z * list byte)) : Mem :=
  fun addr =>
    match chunks with
    | [] => None
    | (base, bs) :: rest =>
        if (base <=? addr) && (addr <? base + Z.of_nat (length bs))
        then bs !! Z.to_nat (addr - base)
        else mem_of_chunks rest addr
    end.

(** ** Concrete targets

    A 64-bit target with process id 7, read by a reader built for
    aarch64.  The JIT descriptor lives at 0x1000 and the DEX descriptor
    at 0x2000. *)
Module Fixture.

Definition elf_magic : list byte := [x7f; "E"%byte; "L"%byte; "F"%byte].

Definition one_symbol : ElfFileSymbol.t := ElfFileSymbol.mk 256 32 "jitted".
Definition label_symbol : ElfFileSymbol.t := ElfFileSymbol.mk 288 0 "$label".

Definition world (mem : nat -> Mem) (maps : list ThreadMmap.t) (scratch_ok : bool) : World :=
  {| target_mem := fun t _ => mem t;
     GetThreadMmapsInProcess := fun _ _ => Some maps;
     ElfFile_Open := fun _ => None;
     getpagesize := 4096;
     IsValidElfFileMagic := fun data size => (4 <=? size) && strncmp_eq 4 data elf_magic;
     ElfFile_ParseSymbols := fun _ _ => Some [one_symbol; label_symbol];
     ParseExtractedInMemoryPath := fun _ => None;
     GetUrlInApk := fun zip_path entry_path => zip_path +:+ "!/" +:+ entry_path;
     IsRegularFile := fun _ => true;
     fopen_ok := fun _ => scratch_ok;
     fwrite_ok := fun _ _ _ => scratch_ok;
     debug_info_callback_ := fun _ _ => true |}.

Definition config (sync : SyncOption) : Config :=
  {| symfile_prefix_ := "/tmp/perf";
     symfile_option_ := kKeepSymFiles;
     sync_option_ := sync;
     kJITAppCacheFile := "jit_app_cache";
     kJITZygoteCacheFile := "jit_zygote_cache" |}.

Definition target : Process.t :=
  Process.mk 7 true false true 4096 8192 Descriptor.init Descriptor.init [].

Definition start : State := mkState 0 target None None [] ∅ [].

(** A raw descriptor of a 64-bit target. *)
Definition raw_descriptor (magic : string) (sizeof_entry seqlock timestamp first : Z)
    : list byte :=
  encode_descriptor aarch64 uint64_t
    (JITDescriptor.mk 1 0 0 first (list_byte_of_string magic) 0 56 sizeof_entry
                      seqlock timestamp).

Definition raw_entry (next prev symfile_addr symfile_size timestamp : Z) : list byte :=
  encode_entry aarch64 uint64_t Natural
    (JITCodeEntry.mk next prev symfile_addr symfile_size timestamp).

Definition raw_entry_v2 (next prev symfile_addr symfile_size timestamp seqlock : Z)
    : list byte :=
  encode_entry_v2 aarch64 uint64_t Natural
    (JITCodeEntryV2.mk next prev symfile_addr symfile_size timestamp seqlock).

Definition vdex : ThreadMmap.t := ThreadMmap.mk 20480 4096 64 1 "/data/app/base.vdex".
Definition odex : ThreadMmap.t := ThreadMmap.mk 4096 8192 0 1 "/data/app/base.odex".

(** A DEX list whose only entry, at 0x3000, is its own successor. *)
Definition looping_mem : Mem :=
  mem_of_chunks
    [(4096, raw_descriptor "Android1" 40 0 0 0);
     (8192, raw_descriptor "Android1" 40 2 50 12288);
     (12288, raw_entry 12288 0 20480 256 100)].

Definition looping_world : World := world (fun _ => looping_mem) [vdex] true.

(** A DEX list of one entry; the descriptor's seqlock moves from 2 to 4
    between the walk and the second read of the descriptors. *)
Definition racing_mem (t : nat) : Mem :=
  mem_of_chunks
    [(4096, raw_descriptor "Android1" 40 0 0 0);
     (8192, raw_descriptor "Android1" 40 (if (t <? 2)%nat then 2 else 4) 50 12288);
     (12288, raw_entry 0 0 20480 256 100)].

Definition racing_world : World := world racing_mem [vdex] true.
Definition steady_world : World := world (fun _ => racing_mem 0) [vdex] true.

(** A version-2 JIT list of one entry whose seqlock is odd at first and
    even from the third observation on. *)
Definition busy_entry_mem (t : nat) : Mem :=
  mem_of_chunks
    [(4096, raw_descriptor "Android2" 48 2 50 12288);
     (8192, raw_descriptor "Android2" 48 0 0 0);
     (12288, raw_entry_v2 0 0 24576 8 100 (if (t <? 3)%nat then 1 else 2));
     (24576, elf_magic ++ [x00; x00; x00; x00])].

Definition busy_entry_world : World := world busy_entry_mem [] true.

(** A version-2 JIT list of two entries with even seqlocks; the first
    one has neither a symfile address nor a symfile size. *)
Definition zero_entry_mem : Mem :=
  mem_of_chunks
    [(4096, raw_descriptor "Android2" 48 4 200 12288);
     (8192, raw_descriptor "Android2" 48 0 0 0);
     (12288, raw_entry_v2 12352 0 0 0 200 2);
     (12352, raw_entry_v2 0 12288 24576 8 100 2);
     (24576, elf_magic ++ [x00; x00; x00; x00])].

Definition zero_entry_world : World := world (fun _ => zero_entry_mem) [] true.

(** A JIT list of two version-1 entries registered at 200 and 100; the
    symfile of the second one is not readable. *)
Definition two_entries_mem : Mem :=
  mem_of_chunks
    [(4096, raw_descriptor "Android1" 40 4 200 12288);
     (8192, raw_descriptor "Android1" 40 0 0 0);
     (12288, raw_entry 12352 0 24576 8 200);
     (12352, raw_entry 0 12288 28672 8 100);
     (24576, elf_magic ++ [x00; x00; x00; x00])].

Definition two_entries_world (scratch_ok : bool) : World :=
  world (fun _ => two_entries_mem) [] scratch_ok.

(** A target whose memory is readable everywhere and holds an ELF magic
    at 0x100000. *)
Definition flat_mem : Mem :=
  fun addr =>
    Some (if (1048576 <=? addr) && (addr <? 1048580)
          then nth (Z.to_nat (addr - 1048576)) elf_magic x00
          else x00).

Definition flat_world : World := world (fun _ => flat_mem) [] true.

Definition info (timestamp : Z) : JITDebugInfo.t :=
  JITDebugInfo.JIT_DEBUG_DEX_FILE 7 timestamp 0 "/data/app/base.vdex" None.

(** The steady target again, with a DEX descriptor that declares an
    entry size of 7 bytes. *)
Definition odd_sized_mem : Mem :=
  mem_of_chunks
    [(4096, raw_descriptor "Android1" 40 0 0 0);
     (8192, raw_descriptor "Android1" 7 2 50 12288);
     (12288, raw_entry 0 0 20480 256 100)].

Definition odd_sized_world : World := world (fun _ => odd_sized_mem) [vdex] true.

(** A 32-bit descriptor that declares "Android1" and an entry size of
    7 bytes. *)
Definition odd_sized : JITDescriptor.t :=
  JITDescriptor.mk 1 0 0 12288 (list_byte_of_string "Android1") 0 48 7 2 50.

(** A DEX entry at 0x5000 whose size makes [symfile_addr +
    symfile_size] wrap around 64 bits, and a target whose DEX list
    holds that entry. *)
Definition huge_entry : CodeEntry.t := CodeEntry.mk 12288 20480 (2 ^ 64 - 2048) 100.

Definition wrapping_mem : Mem :=
  mem_of_chunks
    [(4096, raw_descriptor "Android1" 40 0 0 0);
     (8192, raw_descriptor "Android1" 40 2 50 12288);
     (12288, raw_entry 0 0 20480 (2 ^ 64 - 2048) 100)].

Definition wrapping_world : World := world (fun _ => wrapping_mem) [vdex] true.

(** A DEX entry inside [vdex]. *)
Definition dex_entry : CodeEntry.t := CodeEntry.mk 12288 20736 512 100.

End Fixture.

(** ** Notions used to state further properties *)

Section LinkedList.

Context (h : Host) {T : Type} `{CodeEntryT T}.

(** The entry a target memory holds at an address: what a read of
    [sizeof(CodeEntryT)] bytes there delivers, decoded. *)
Definition entry_at (m : Mem) (addr : Z) : option T :=
  let '(result, bufs) :=
    process_vm_readv m [(to_uintptr h addr, to_size_t h sizeof_entry)] in
  if to_size_t h result =? sizeof_entry then Some (decode_entry (hd [] bufs)) else None.

(** [linked m prev first es]: in the memory [m] the doubly linked list
    that starts at [first] holds the entries [es], each with its
    address, and ends in a null link; [prev] is what the back link of
    the first entry holds. *)
Inductive linked (m : Mem) : Z → Z → list (Z * T) → Prop :=
| linked_nil prev : linked m prev 0 []
| linked_cons prev addr entry rest :
    addr ≠ 0 →
    entry_at m addr = Some entry →
    prev_addr entry = prev →
    linked m addr (next_addr entry) rest →
    linked m prev addr ((addr, entry) :: rest).

(** The entries of a list that are new with respect to a timestamp:
    those in front of the first one registered at or before it, at most
    [limit] of them, without the ones that carry no symfile. *)
Fixpoint fresh_entries (limit : nat) (last_action_timestamp : Z) (es : list (Z * T))
    : list CodeEntry.t :=
  match limit, es with
  | S limit', (addr, entry) :: rest =>
      if register_timestamp entry <=? last_action_timestamp then []
      else
        (if 0 <? symfile_size entry
         then [CodeEntry.mk addr (symfile_addr entry) (symfile_size entry)
                            (register_timestamp entry)]
         else [])
        ++ fresh_entries limit' last_action_timestamp rest
  | _, _ => []
  end.

End LinkedList.

(** The process a debug-info record belongs to. *)
Definition info_pid (info : JITDebugInfo.t) : Z :=
  match info with
  | JITDebugInfo.JIT_DEBUG_JIT_CODE pid _ _ _ _ _ => pid
  | JITDebugInfo.JIT_DEBUG_DEX_FILE pid _ _ _ _ => pid
  end.

(** A record in its JIT form, for a symbol of non-zero length of the
    process [pid], stamped after [timestamp]. *)
Definition fresh_jit_code (pid timestamp : Z) (info : JITDebugInfo.t) : Prop :=
  match info with
  | JITDebugInfo.JIT_DEBUG_JIT_CODE pid' timestamp' _ jit_code_len _ _ =>
      pid' = pid ∧ timestamp < timestamp' ∧ jit_code_len ≠ 0
  | JITDebugInfo.JIT_DEBUG_DEX_FILE _ _ _ _ _ => False
  end.

(** A record in its DEX form, of the process [pid], stamped after
    [timestamp]. *)
Definition fresh_dex_file (pid timestamp : Z) (info : JITDebugInfo.t) : Prop :=
  match info with
  | JITDebugInfo.JIT_DEBUG_JIT_CODE _ _ _ _ _ _ => False
  | JITDebugInfo.JIT_DEBUG_DEX_FILE pid' timestamp' _ _ _ => pid' = pid ∧ timestamp < timestamp'
  end.

(** What reading a target leaves alone in the reader: the identity and
    the location of the process, its committed descriptors, the
    delivery queue, the location cache and the log of the callback.
    The clock only advances and a died mark is never taken back; the
    scratch artifacts may change. *)
Definition reads (s s' : State) : Prop :=
  Process.pid (process s') = Process.pid (process s) ∧
  Process.initialized (process s') = Process.initialized (process s) ∧
  Process.is_64bit (process s') = Process.is_64bit (process s) ∧
  Process.jit_descriptor_addr (process s') = Process.jit_descriptor_addr (process s) ∧
  Process.dex_descriptor_addr (process s') = Process.dex_descriptor_addr (process s) ∧
  Process.jit_zygote_cache_ranges_ (process s') = Process.jit_zygote_cache_ranges_ (process s) ∧
  last_descriptors s' = last_descriptors s ∧
  debug_info_q_ s' = debug_info_q_ s ∧
  descriptors_location_cache_ s' = descriptors_location_cache_ s ∧
  delivered s' = delivered s ∧
  (now s ≤ now s')%nat ∧
  (Process.died (process s) = true → Process.died (process s') = true).

(** The scratch artifact [GetTempSymFile] selects for an entry, and
    the path it creates that artifact under. *)
Definition symfile_of (jit_entry : CodeEntry.t) (s : State) : SymFileSel :=
  if in_zygote_cache (Process.jit_zygote_cache_ranges_ (process s))
                     (CodeEntry.symfile_addr jit_entry)
  then ZygoteSymFile else AppSymFile.

Definition symfile_path (cfg : Config) (sel : SymFileSel) : string :=
  symfile_prefix_ cfg +:+ "_" +:+
  match sel with
  | ZygoteSymFile => kJITZygoteCacheFile cfg
  | AppSymFile => kJITAppCacheFile cfg
  end.

(** Storing the symfile of an entry fails in the state [s]: the scratch
    artifact of the entry exists and does not take [symfile_size] bytes
    at its offset, or it does not exist yet and either cannot be
    created under its path or, once created, does not take the bytes at
    offset 0. *)
Definition scratch_fails (w : World) (cfg : Config) (jit_entry : CodeEntry.t) (s : State)
    : bool :=
  let sel := symfile_of jit_entry s in
  let size := CodeEntry.symfile_size jit_entry in
  match get_symfile sel s with
  | Some f => negb (fwrite_ok w (TempSymFile.path_ f) (TempSymFile.file_offset_ f) size)
  | None =>
      negb (fopen_ok w (symfile_path cfg sel))
      || negb (fwrite_ok w (symfile_path cfg sel) 0 size)
  end.

(** * Properties *)

(** ** Layout facts: the [static_assert]s of the source *)

Lemma static_assert_descriptors (h : Host) :
  JITDescriptor.sizeof h uint32_t = 48 ∧ JITDescriptor.sizeof h uint64_t = 56.
Proof. by destruct h. Qed.

Lemma static_assert_entries (h : Host) :
  match h with
  | i386 | x86_64 =>
      sizeof_of (JITCodeEntry32 h) = 28 ∧ sizeof_of (JITCodeEntry32V2 h) = 32 ∧
      sizeof_of (JITCodeEntry64 h) = 40 ∧ sizeof_of (JITCodeEntry64V2 h) = 48
  | _ =>
      sizeof_of (JITCodeEntry32 h) = 32 ∧ sizeof_of (JITCodeEntry32V2 h) = 40 ∧
      sizeof_of (JITCodeEntry64 h) = 40 ∧ sizeof_of (JITCodeEntry64V2 h) = 48
  end.
Proof. by destruct h. Qed.

(** ** What observing the target may change *)

Lemma observes_refl s : observes s s.
Proof. by split. Qed.

Lemma observes_trans s1 s2 s3 : observes s1 s2 → observes s2 s3 → observes s1 s3.
Proof. intros [E1 L1] [E2 L2]. split; [congruence | lia]. Qed.

Lemma observes_last_descriptors s s' :
  observes s s' → last_descriptors s' = last_descriptors s.
Proof. intros [E _]. unfold frame in E. unfold last_descriptors. congruence. Qed.

Lemma observes_delivered s s' : observes s s' → delivered s' = delivered s.
Proof. intros [E _]. unfold frame in E. congruence. Qed.


Lemma observes_is_64bit s s' :
  observes s s' → Process.is_64bit (process s') = Process.is_64bit (process s).
Proof. intros [E _]. unfold frame in E. congruence. Qed.

Arguments ReadRemoteMem : simpl never.
Arguments ReadDescriptors : simpl never.
Arguments ReadNewCodeEntries : simpl never.
Arguments GetTempSymFile : simpl never.
Arguments ReadJITCodeDebugInfo_body : simpl never.
Arguments ReadDexFileDebugInfo : simpl never.
Arguments ReadJITCodeDebugInfo : simpl never.
Arguments TempSymFile.WriteEntry : simpl never.

(** ** Binary search *)

Section LowerBound.

Context {A B : Type} (cmp : A → B → bool) (v : list A) (value : B).

(** The vector is partitioned: the elements below [value] come first. *)
Hypothesis partitioned :
  ∀ i j, (i ≤ j)%nat → below cmp v value j = true → below cmp v value i = true.

Lemma lower_bound_loop_spec fuel first len :
  (len ≤ fuel)%nat → (first + len ≤ length v)%nat →
  (∀ i, (i < first)%nat → below cmp v value i = true) →
  (∀ i, (first + len ≤ i)%nat → below cmp v value i = false) →
  let r := lower_bound_loop cmp v value fuel first len in
  (r ≤ length v)%nat ∧
  (∀ i, (i < r)%nat → below cmp v value i = true) ∧
  (∀ i, (r ≤ i)%nat → below cmp v value i = false).
Proof.
  revert first len. induction fuel as [|fuel IH]; intros first len Hfuel Hlen Hlo Hhi;
    cbn [lower_bound_loop].
  { split_and!; [lia | done |]. intros i Hi. apply Hhi. lia. }
  destruct (Nat.eqb_spec len 0) as [-> | Hpos].
  { split_and!; [lia | done |]. intros i Hi. apply Hhi. lia. }
  assert (Hhalf : (len / 2 < len)%nat) by (apply Nat.div_lt; lia).
  destruct (v !! (first + len / 2)%nat) as [x|] eqn:Emid.
  2:{ apply lookup_ge_None in Emid. lia. }
  assert (Hmid : below cmp v value (first + len / 2) = cmp x value)
    by (unfold below; by rewrite Emid).
  destruct (cmp x value) eqn:Ecmp.
  - apply IH; [lia | lia | |].
    + intros i Hi. apply (partitioned i (first + len / 2)%nat); [lia | done].
    + intros i Hi. apply Hhi. lia.
  - apply IH; [lia | lia | done |].
    intros i Hi. destruct (below cmp v value i) eqn:Ei; [| done].
    rewrite (partitioned (first + len / 2)%nat i) in Hmid; [done | lia | done].
Qed.

Lemma lower_bound_spec :
  let r := lower_bound cmp v value in
  (r ≤ length v)%nat ∧
  (∀ i, (i < r)%nat → below cmp v value i = true) ∧
  (∀ i, (r ≤ i)%nat → below cmp v value i = false).
Proof.
  apply lower_bound_loop_spec; [done | done | lia |].
  intros i Hi. unfold below. by rewrite lookup_ge_None_2 by lia.
Qed.

End LowerBound.

Lemma sorted_by_start_lookup maps i j x y :
  sorted_by_start maps = true → (i ≤ j)%nat →
  maps !! i = Some x → maps !! j = Some y →
  ThreadMmap.start_addr x ≤ ThreadMmap.start_addr y.
Proof.
  revert i j. induction maps as [|m maps IH]; intros i j Hs Hij Hi Hj; [done |].
  simpl in Hs. apply andb_true_iff in Hs as [Hall Hs].
  destruct i as [|i], j as [|j]; simpl in *; simplify_eq; try lia.
  - rewrite forallb_forall in Hall. apply Z.leb_le, Hall.
    apply list_elem_of_In. by eapply list_elem_of_lookup_2.
  - apply (IH i j); [done | lia | done | done].
Qed.

Lemma comp_partitioned maps addr i j :
  sorted_by_start maps = true → (i ≤ j)%nat →
  below comp maps addr j = true → below comp maps addr i = true.
Proof.
  intros Hs Hij. unfold below, comp.
  destruct (maps !! j) as [y|] eqn:Ej; [| done].
  destruct (maps !! i) as [x|] eqn:Ei.
  2:{ apply lookup_ge_None in Ei. apply lookup_lt_Some in Ej. lia. }
  pose proof (sorted_by_start_lookup maps i j x y Hs Hij Ei Ej).
  rewrite !Z.leb_le. lia.
Qed.

(** ** The queue of pending records *)

Lemma pq_top_None q : pq_top q = None ↔ q = [].
Proof.
  split; [| by intros ->].
  destruct q as [|x q]; [done |]. simpl.
  destruct (pq_top q) as [y|]; [| done].
  by destruct (JITDebugInfo.timestamp y <? JITDebugInfo.timestamp x).
Qed.

Lemma pq_top_min q x :
  pq_top q = Some x →
  x ∈ q ∧ Forall (λ y, JITDebugInfo.timestamp x ≤ JITDebugInfo.timestamp y) q.
Proof.
  revert x. induction q as [|a q IH]; intros x; [done |]. simpl.
  destruct (pq_top q) as [y|] eqn:Etop.
  - destruct (IH y eq_refl) as [Hin Hall].
    destruct (Z.ltb_spec (JITDebugInfo.timestamp y) (JITDebugInfo.timestamp a));
      intros [= <-].
    + split; [by apply list_elem_of_further |].
      constructor; [lia | done].
    + split; [apply list_elem_of_here |].
      constructor; [lia |]. eapply Forall_impl; [done |]. simpl. intros; lia.
  - apply pq_top_None in Etop as ->. intros [= <-].
    split; [apply list_elem_of_here |]. by repeat constructor.
Qed.

Lemma pq_pop_perm q x : pq_top q = Some x → q ≡ₚ x :: pq_pop q.
Proof.
  revert x. induction q as [|a q IH]; intros x; [done |]. simpl.
  destruct (pq_top q) as [y|] eqn:Etop.
  - destruct (JITDebugInfo.timestamp y <? JITDebugInfo.timestamp a); intros [= <-]; [| done].
    rewrite (IH y eq_refl) at 1. apply Permutation_swap.
  - by intros [= <-].
Qed.

Lemma foldl_pq_push q l : foldl (λ q info, pq_push info q) q l = q ++ l.
Proof.
  revert q. induction l as [|x l IH]; intros q; simpl; [by rewrite app_nil_r |].
  rewrite IH. unfold pq_push. by rewrite <- app_assoc.
Qed.

Lemma FlushDebugInfo_loop_spec fuel timestamp q acc :
  (length q ≤ fuel)%nat →
  ∃ batch,
    (FlushDebugInfo_loop fuel timestamp q acc).2 = acc ++ batch ∧
    q ≡ₚ batch ++ (FlushDebugInfo_loop fuel timestamp q acc).1 ∧
    Forall (λ x, JITDebugInfo.timestamp x < timestamp) batch ∧
    Forall (λ x, timestamp ≤ JITDebugInfo.timestamp x)
      (FlushDebugInfo_loop fuel timestamp q acc).1 ∧
    StronglySorted Z.le (JITDebugInfo.timestamp <$> batch).
Proof.
  revert q acc. induction fuel as [|fuel IH]; intros q acc Hlen.
  - destruct q; [| simpl in Hlen; lia]. exists []. simpl.
    rewrite app_nil_r. split_and!; try done; constructor.
  - simpl. destruct (pq_top q) as [top|] eqn:Etop.
    2:{ apply pq_top_None in Etop as ->. exists []. simpl.
        rewrite app_nil_r. split_and!; try done; constructor. }
    destruct (pq_top_min q top Etop) as [Hin Hmin].
    pose proof (pq_pop_perm q top Etop) as Hperm.
    destruct (Z.ltb_spec (JITDebugInfo.timestamp top) timestamp) as [Hlt|Hge].
    + destruct (IH (pq_pop q) (acc ++ [top])) as (batch & Hout & Hp & Hb & Hq & Hs).
      { apply Permutation_length in Hperm. simpl in Hperm. lia. }
      exists (top :: batch). split_and!.
      * rewrite Hout. by rewrite <- app_assoc.
      * etrans; [apply Hperm |]. simpl. by apply Permutation_skip.
      * by constructor.
      * done.
      * simpl. constructor; [done |].
        rewrite Forall_fmap.
        assert (Hmin' : Forall (λ y, JITDebugInfo.timestamp top ≤ JITDebugInfo.timestamp y)
                          (batch ++ (FlushDebugInfo_loop fuel timestamp (pq_pop q)
                                       (acc ++ [top])).1)).
        { rewrite <- Hp.
          assert (Hmin2 : Forall (λ y, JITDebugInfo.timestamp top ≤ JITDebugInfo.timestamp y)
                            (top :: pq_pop q)) by (by rewrite <- Hperm).
          by apply Forall_cons in Hmin2 as [_ ?]. }
        apply Forall_app in Hmin' as [Hmin' _].
        eapply Forall_impl; [done |]. done.
    + exists []. simpl. rewrite app_nil_r. split_and!; try done; try constructor.
      eapply Forall_impl; [done |]. simpl. intros; lia.
Qed.

Section Facts.

Context (h : Host) (w : World) (cfg : Config).

Lemma ReadRemoteMem_now remote_addr size s :
  now (ReadRemoteMem h w remote_addr size s).2 = S (now s).
Proof.
  unfold ReadRemoteMem. destruct (process_vm_readv _ _) as [result bufs].
  by destruct (negb _).
Qed.

Lemma ReadRemoteMem_observes remote_addr size s :
  observes s (ReadRemoteMem h w remote_addr size s).2.
Proof.
  unfold ReadRemoteMem. destruct (process_vm_readv _ _) as [result bufs].
  destruct (negb _); split; simpl; auto.
Qed.

Lemma ReadRemoteMem_None_died remote_addr size s s' :
  ReadRemoteMem h w remote_addr size s = (None, s') → Process.died (process s') = true.
Proof.
  unfold ReadRemoteMem. destruct (process_vm_readv _ _) as [result bufs].
  destruct (negb _); intros [= <-]; done.
Qed.

Lemma ReadDescriptorsImpl_observes a j d s :
  observes s (ReadDescriptorsImpl h w a j d s).2 ∧
  now (ReadDescriptorsImpl h w a j d s).2 = S (now s).
Proof.
  unfold ReadDescriptorsImpl. destruct (process_vm_readv _ _) as [result bufs].
  destruct (negb _); [by repeat split; simpl; auto |].
  destruct (ParseDescriptor _ _ _ j); [| by repeat split; simpl; auto].
  destruct (ParseDescriptor _ _ _ d); by repeat split; simpl; auto.
Qed.

Lemma ReadDescriptors_observes j d s :
  observes s (ReadDescriptors h w j d s).2.
Proof.
  unfold ReadDescriptors.
  destruct (Process.is_64bit _); apply ReadDescriptorsImpl_observes.
Qed.

Lemma ReadDescriptors_now j d s :
  now (ReadDescriptors h w j d s).2 = S (now s).
Proof.
  unfold ReadDescriptors.
  destruct (Process.is_64bit _); apply ReadDescriptorsImpl_observes.
Qed.

(** ** The list walker *)

Section Walker.

Context {T : Type} `{CodeEntryT T}.

Lemma ReadNewCodeEntriesImpl_body_spec ts l s :
  let '(r, s') := ReadNewCodeEntriesImpl_body h w ts l s in
  observes s s' ∧ (now s' ≤ S (now s))%nat ∧
  match r with
  | WalkNext l' =>
      now s' = S (now s) ∧
      prev_entry_addr l' = current_entry_addr l ∧
      entry_addr_set l' = {[current_entry_addr l]} ∪ entry_addr_set l ∧
      (length (new_code_entries l') ≤ S (length (new_code_entries l)))%nat
  | WalkDone b entries => entries = new_code_entries l
  end.
Proof.
  unfold ReadNewCodeEntriesImpl_body, bind, ret.
  destruct (current_entry_addr l =? 0); [by split_and!; auto using observes_refl |].
  destruct (bool_decide _); [by split_and!; auto using observes_refl |].
  pose proof (ReadRemoteMem_observes (current_entry_addr l) sizeof_entry s) as Ho.
  pose proof (ReadRemoteMem_now (current_entry_addr l) sizeof_entry s) as Hn.
  destruct (ReadRemoteMem h w _ _ s) as [[bs|] s1]; simpl in *;
    [| by split_and!; auto; lia].
  destruct (negb _ || negb _); [by split_and!; auto; lia |].
  destruct (_ <=? ts); [by split_and!; auto; lia |].
  split_and!; auto; try lia.
  destruct (0 <? _); simpl; [rewrite length_app; simpl |]; lia.
Qed.

Lemma ReadNewCodeEntriesImpl_loop_spec n ts l s :
  let '(r, s') := ReadNewCodeEntriesImpl_loop h w n ts l s in
  observes s s' ∧ (now s' ≤ now s + n)%nat ∧
  (length r.2 ≤ length (new_code_entries l) + n)%nat.
Proof.
  revert l s. induction n as [|n IH]; intros l s; simpl.
  - unfold ret. repeat split; auto using observes_refl; simpl; lia.
  - unfold bind.
    pose proof (ReadNewCodeEntriesImpl_body_spec ts l s) as Hb.
    destruct (ReadNewCodeEntriesImpl_body h w ts l s) as [[l'|b entries] s1].
    + destruct Hb as (Ho & _ & Hn & _ & _ & Hl).
      specialize (IH l' s1).
      destruct (ReadNewCodeEntriesImpl_loop h w n ts l' s1) as [r s'].
      destruct IH as (Ho' & Hn' & Hl').
      split_and!; [by eapply observes_trans | lia | lia].
    + destruct Hb as (Ho & Hn & ->). unfold ret. split_and!; auto; simpl; lia.
Qed.

(** Every iteration that goes on has read one entry and has gathered at
    most that entry. *)
Lemma ReadNewCodeEntriesImpl_loop_hops n ts l s :
  let '(r, s') := ReadNewCodeEntriesImpl_loop h w n ts l s in
  (now s ≤ now s')%nat ∧ (now s' ≤ now s + n)%nat ∧
  (length r.2 + now s ≤ length (new_code_entries l) + now s')%nat.
Proof.
  revert l s. induction n as [|n IH]; intros l s; simpl.
  - unfold ret. simpl. lia.
  - unfold bind.
    pose proof (ReadNewCodeEntriesImpl_body_spec ts l s) as Hb.
    destruct (ReadNewCodeEntriesImpl_body h w ts l s) as [[l'|b entries] s1].
    + destruct Hb as (_ & _ & Hn & _ & _ & Hl).
      specialize (IH l' s1).
      destruct (ReadNewCodeEntriesImpl_loop h w n ts l' s1) as [r s'].
      destruct IH as (Hle & Hn' & Hl'). lia.
    + destruct Hb as ([_ Hle] & Hn & ->). unfold ret. simpl. lia.
Qed.

(** What a walk gathers, whatever the target holds. *)
Lemma ReadNewCodeEntriesImpl_loop_gathers n ts l s :
  ∃ new,
    (ReadNewCodeEntriesImpl_loop h w n ts l s).1.2 = new_code_entries l ++ new ∧
    Forall (λ e, ts < CodeEntry.timestamp e ∧ 0 < CodeEntry.symfile_size e ∧
                 CodeEntry.addr e ≠ 0 ∧ CodeEntry.addr e ∉ entry_addr_set l) new ∧
    NoDup (CodeEntry.addr <$> new).
Proof.
  revert l s. induction n as [|n IH]; intros l s.
  { exists []. cbn. rewrite app_nil_r. split_and!; [done|constructor|constructor]. }
  cbn [ReadNewCodeEntriesImpl_loop]. unfold bind at 1.
  assert (∀ b s', ∃ new,
    (@ret (bool * list CodeEntry.t) (b, new_code_entries l) s').1.2
    = new_code_entries l ++ new ∧
    Forall (λ e, ts < CodeEntry.timestamp e ∧ 0 < CodeEntry.symfile_size e ∧
                 CodeEntry.addr e ≠ 0 ∧ CodeEntry.addr e ∉ entry_addr_set l) new ∧
    NoDup (CodeEntry.addr <$> new)) as Hdone.
  { intros b s'. exists []. cbn. rewrite app_nil_r. split_and!; [done|constructor|constructor]. }
  unfold ReadNewCodeEntriesImpl_body.
  destruct (current_entry_addr l =? 0) eqn:Hz; [apply Hdone|]. apply Z.eqb_neq in Hz.
  destruct (bool_decide (current_entry_addr l ∈ entry_addr_set l)) eqn:Hin; [apply Hdone|].
  apply bool_decide_eq_false in Hin.
  unfold bind. destruct (ReadRemoteMem h w _ _ s) as [[bs|] s1]; [|apply Hdone].
  destruct (negb (prev_addr (decode_entry bs) =? prev_entry_addr l)
            || negb (Valid (decode_entry bs))); [apply Hdone|].
  destruct (register_timestamp (decode_entry bs) <=? ts) eqn:Hts; [apply Hdone|].
  apply Z.leb_gt in Hts. cbn [ret].
  match goal with |- context [ReadNewCodeEntriesImpl_loop h w n ts ?l' s1] =>
    destruct (IH l' s1) as (new & Heq & Hall & Hnd) end.
  cbn [new_code_entries entry_addr_set] in Heq, Hall.
  assert (Forall (λ e, ts < CodeEntry.timestamp e ∧ 0 < CodeEntry.symfile_size e ∧
                       CodeEntry.addr e ≠ 0 ∧ CodeEntry.addr e ∉ entry_addr_set l) new
          ∧ current_entry_addr l ∉ CodeEntry.addr <$> new) as [Hall' Hcur].
  { split.
    - eapply Forall_impl; [exact Hall|]. intros e (? & ? & ? & Hn). split_and!; try done.
      intros Hin'. apply Hn, elem_of_union. by right.
    - intros (e & He & Hine)%list_elem_of_fmap.
      rewrite Forall_forall in Hall. destruct (Hall e Hine) as (_ & _ & _ & Hn).
      apply Hn, elem_of_union. left. by apply elem_of_singleton. }
  destruct (0 <? symfile_size (decode_entry bs)) eqn:Hsz.
  - apply Z.ltb_lt in Hsz. eexists (_ :: new). rewrite Heq, <- app_assoc. split; [done|].
    split; [constructor; [cbn; done|done]|].
    cbn. constructor; done.
  - exists new. done.
Qed.

(** Configurations that a walk passes through yield the result of the
    walk. *)
Lemma walk_steps_loop ts (c c' : WalkConf) :
  rtc (walk_step h w ts) c c' →
  ReadNewCodeEntriesImpl_loop h w c.1.1 ts c.1.2 c.2
  = ReadNewCodeEntriesImpl_loop h w c'.1.1 ts c'.1.2 c'.2.
Proof.
  induction 1 as [|c1 c2 c3 Hs _ IH]; [done |].
  rewrite <- IH. destruct Hs as [n l s l' s' Hb]. simpl.
  unfold bind. by rewrite Hb.
Qed.




End Walker.

Lemma ReadNewCodeEntries_spec d ts limit acc s :
  let '(r, s') := ReadNewCodeEntries h w d ts limit acc s in
  observes s s' ∧ (now s' ≤ now s + Z.to_nat limit)%nat ∧
  (length r.2 ≤ length acc + Z.to_nat limit)%nat.
Proof.
  unfold ReadNewCodeEntries, ReadNewCodeEntriesImpl.
  destruct (Descriptor.version d =? 1); [destruct (Process.is_64bit _) |
    destruct (Descriptor.version d =? 2); [destruct (Process.is_64bit _) |]];
    try apply ReadNewCodeEntriesImpl_loop_spec.
  split_and!; auto using observes_refl; simpl; lia.
Qed.

Lemma ReadNewCodeEntries_hops d ts limit acc s :
  let '(r, s') := ReadNewCodeEntries h w d ts limit acc s in
  (now s ≤ now s')%nat ∧ (now s' ≤ now s + Z.to_nat limit)%nat ∧
  (length r.2 + now s ≤ length acc + now s')%nat.
Proof.
  unfold ReadNewCodeEntries, ReadNewCodeEntriesImpl.
  destruct (Descriptor.version d =? 1); [destruct (Process.is_64bit _) |
    destruct (Descriptor.version d =? 2); [destruct (Process.is_64bit _) |]];
    try apply ReadNewCodeEntriesImpl_loop_hops.
  simpl. lia.
Qed.

Lemma ReadNewCodeEntries_gathers d ts limit acc s :
  ∃ new,
    (ReadNewCodeEntries h w d ts limit acc s).1.2 = acc ++ new ∧
    Forall (λ e, ts < CodeEntry.timestamp e ∧ 0 < CodeEntry.symfile_size e ∧
                 CodeEntry.addr e ≠ 0) new ∧
    NoDup (CodeEntry.addr <$> new).
Proof.
  assert (∀ T (C : CodeEntryT T), ∃ new,
    (ReadNewCodeEntriesImpl h w d ts limit acc s).1.2 = acc ++ new ∧
    Forall (λ e, ts < CodeEntry.timestamp e ∧ 0 < CodeEntry.symfile_size e ∧
                 CodeEntry.addr e ≠ 0) new ∧
    NoDup (CodeEntry.addr <$> new)) as Himpl.
  { intros T C. unfold ReadNewCodeEntriesImpl.
    edestruct (ReadNewCodeEntriesImpl_loop_gathers (T := T)) as (new & Heq & Hall & Hnd).
    exists new. split; [exact Heq|]. split; [|done].
    eapply Forall_impl; [exact Hall|]. cbn. tauto. }
  unfold ReadNewCodeEntries.
  destruct (Descriptor.version d =? 1).
  { destruct (Process.is_64bit (process s)); apply Himpl. }
  destruct (Descriptor.version d =? 2).
  { destruct (Process.is_64bit (process s)); apply Himpl. }
  exists []. cbn. rewrite app_nil_r. split_and!; [done|constructor|constructor].
Qed.

Lemma IsDescriptorChanged_eq prev s :
  IsDescriptorChanged h w prev s =
  let '(r, s') := ReadDescriptors h w Descriptor.init Descriptor.init s in
  (negb (bool_decide (reread_seqlock (Descriptor.type prev) r
                      = Some (Descriptor.action_seqlock prev))), s').
Proof.
  unfold IsDescriptorChanged, bind, ret.
  destruct (ReadDescriptors _ _ _ _ s) as [[[tj td]|] s']; simpl; [|done].
  destruct (Descriptor.type prev); simpl; f_equal; f_equal;
    (destruct (_ =? _) eqn:E; [apply Z.eqb_eq in E | apply Z.eqb_neq in E]);
    symmetry; [apply bool_decide_eq_true | apply bool_decide_eq_false
              |apply bool_decide_eq_true | apply bool_decide_eq_false]; congruence.
Qed.

Lemma land_1_even x : (Z.land x 1 =? 0) = Z.even x.
Proof.
  change 1 with (Z.ones 1). rewrite Z.land_ones by lia. change (2 ^ 1) with 2.
  rewrite Zmod_even. by destruct (Z.even x).
Qed.

Lemma old_descriptor_set ty d p : old_descriptor ty (set_old_descriptor ty d p) = d.
Proof. by destruct ty. Qed.

Local Ltac c1_finish :=
  split_and!; try congruence; try tauto;
  try (intros _ _ _ _; split; [| intros; first [congruence | done]];
       intros Hok; try rewrite Hok;
       first [apply old_descriptor_set | apply (old_descriptor_set kJIT)
             | apply (old_descriptor_set kDEX)]).

(** C1: validate, walk, re-validate.  Within [ReadDebugInfo] nothing is
    emitted and the stored last descriptor stays as it is when the
    snapshot's seqlock is odd; after a successful walk the descriptors
    are read again, and entries are emitted and the snapshot is stored
    only when the seqlock read again equals the seqlock of the
    snapshot. *)
Theorem C1_commit_only_after_equal_reread new_descriptor debug_info s :
  let type := Descriptor.type new_descriptor in
  let old := old_descriptor type (process s) in
  let seqlock := Descriptor.action_seqlock new_descriptor in
  let read_entry_limit := u32 (seqlock - Descriptor.action_seqlock old) / 2 in
  let walk :=
    ReadNewCodeEntries h w new_descriptor (Descriptor.action_timestamp old)
      read_entry_limit [] s in
  let reread := ReadDescriptors h w Descriptor.init Descriptor.init walk.2 in
  let '(ok, debug_info', s') := ReadDebugInfo h w cfg new_descriptor debug_info s in
  (Z.odd seqlock = true →
     debug_info' = debug_info ∧ last_descriptors s' = last_descriptors s) ∧
  (walk.1.1 = true → reread_seqlock type reread.1 ≠ Some seqlock →
     debug_info' = debug_info ∧ last_descriptors s' = last_descriptors s) ∧
  (debug_info' ≠ debug_info ∨ last_descriptors s' ≠ last_descriptors s →
     Z.even seqlock = true ∧ walk.1.1 = true ∧
     reread_seqlock type reread.1 = Some seqlock) ∧
  (seqlock ≠ Descriptor.action_seqlock old → Z.even seqlock = true →
     walk.1.1 = true → reread_seqlock type reread.1 = Some seqlock →
     (ok = true → old_descriptor type (process s') = new_descriptor) ∧
     (walk.1.2 ≠ [] →
      (ok, debug_info') =
      match type with
      | kJIT => (ReadJITCodeDebugInfo h w cfg walk.1.2 debug_info reread.2).1
      | kDEX => (true, (ReadDexFileDebugInfo w walk.1.2 debug_info reread.2).1)
      end)).
Proof.
  intros type old seqlock read_entry_limit walk reread.
  unfold ReadDebugInfo. fold type old seqlock read_entry_limit.
  rewrite land_1_even.
  destruct (seqlock =? Descriptor.action_seqlock old) eqn:Eseq; simpl.
  { apply Z.eqb_eq in Eseq. split_and!; try tauto; try congruence. }
  apply Z.eqb_neq in Eseq.
  destruct (Z.even seqlock) eqn:Eev; simpl.
  2:{ split_and!; try tauto; try congruence. }
  assert (Hodd : Z.odd seqlock = false) by (rewrite <- Z.negb_even, Eev; done).
  pose proof (ReadNewCodeEntries_spec new_descriptor (Descriptor.action_timestamp old)
                read_entry_limit [] s) as Hw.
  fold walk in Hw |- *.
  subst reread. destruct walk as [[okw new_entries] s1]. simpl in *.
  destruct Hw as (Ho1 & _ & _).
  destruct okw; simpl.
  2:{ apply observes_last_descriptors in Ho1.
      split_and!; try tauto; try congruence; intros [?|?]; congruence. }
  rewrite IsDescriptorChanged_eq. fold type seqlock.
  pose proof (ReadDescriptors_observes Descriptor.init Descriptor.init s1) as Ho2.
  destruct (ReadDescriptors h w Descriptor.init Descriptor.init s1) as [r s2].
  simpl in *.
  assert (Ho : observes s s2) by (by eapply observes_trans).
  apply observes_last_descriptors in Ho.
  destruct (bool_decide _) eqn:Ere; simpl.
  2:{ apply bool_decide_eq_false in Ere.
      split_and!; try tauto; try congruence; intros [?|?]; congruence. }
  apply bool_decide_eq_true in Ere.
  assert (Hemit : ∀ (ok3 : bool) (d3 : list JITDebugInfo.t) (s3 : State),
    (if negb ok3 then (false, d3, s3)
     else (true, d3,
           set_process (set_old_descriptor type new_descriptor (process s3)) s3))
    = (ok3, d3,
       if ok3 then set_process (set_old_descriptor type new_descriptor (process s3)) s3
       else s3)) by (by intros []).
  clearbody type seqlock.
  destruct new_entries as [|e es].
  - rewrite Hemit. simpl. c1_finish.
  - destruct type.
    + destruct (ReadDexFileDebugInfo w (e :: es) debug_info s2) as [d3 s3].
      rewrite Hemit. simpl. c1_finish.
    + destruct (ReadJITCodeDebugInfo h w cfg (e :: es) debug_info s2) as [[ok3 d3] s3].
      rewrite Hemit. simpl. c1_finish.
Qed.

Lemma ReadDebugInfo_failed_walk new_descriptor debug_info s :
  let old := old_descriptor (Descriptor.type new_descriptor) (process s) in
  let read_entry_limit :=
    u32 (Descriptor.action_seqlock new_descriptor - Descriptor.action_seqlock old) / 2 in
  (ReadNewCodeEntries h w new_descriptor (Descriptor.action_timestamp old)
     read_entry_limit [] s).1.1 = false →
  let '(ok, debug_info', s') := ReadDebugInfo h w cfg new_descriptor debug_info s in
  ok = true ∧ debug_info' = debug_info ∧ last_descriptors s' = last_descriptors s.
Proof.
  intros old read_entry_limit Hwalk.
  unfold ReadDebugInfo. fold old read_entry_limit.
  destruct (negb (_ && _)); [done |].
  pose proof (ReadNewCodeEntries_spec new_descriptor (Descriptor.action_timestamp old)
                read_entry_limit [] s) as Hw.
  destruct (ReadNewCodeEntries _ _ _ _ _ _ s) as [[okw new_entries] s1].
  simpl in Hwalk. subst okw. simpl. destruct Hw as (Ho & _).
  by apply observes_last_descriptors in Ho.
Qed.

Lemma JITDescriptor_Valid_ignores_sizeof_entry a d n :
  JITDescriptor_Valid h a
    (JITDescriptor.mk (JITDescriptor.version d) (JITDescriptor.action_flag d)
       (JITDescriptor.relevant_entry_addr d) (JITDescriptor.first_entry_addr d)
       (JITDescriptor.magic d) (JITDescriptor.flags d) (JITDescriptor.sizeof_descriptor d)
       n (JITDescriptor.action_seqlock d) (JITDescriptor.action_timestamp d))
  = JITDescriptor_Valid h a d.
Proof.
  unfold JITDescriptor_Valid, JITDescriptor.AndroidVersion. simpl.
  destruct (negb _ || negb _); [done |].
  destruct (negb (JITDescriptor.sizeof h a =? _)); [done |].
  destruct (sizeof_ADDRT a =? 4), (n =? _), (JITDescriptor.sizeof_entry d =? _);
    by destruct h.
Qed.

(** C4 (amended): a version-1 entry is valid iff its symfile address
    and its symfile size are positive; a version-2 entry is valid iff
    its seqlock is even, whatever its symfile address and size.  An
    entry that fails the predicate of its version makes the walk
    return [false], after which [ReadDebugInfo] emits nothing and
    leaves the stored last descriptors as they are.  A valid entry
    that is in sequence and registered after the cutoff is walked
    over: the walk goes on with its successor, and the entry is
    gathered exactly when its symfile size is not zero; so no walk
    ever gathers an entry without a symfile. *)
Theorem C4_entry_validity :
  (∀ e : JITCodeEntry.t,
     JITCodeEntry.Valid e = true ↔
     0 < JITCodeEntry.symfile_addr e ∧ 0 < JITCodeEntry.symfile_size e) ∧
  (∀ e : JITCodeEntryV2.t,
     JITCodeEntryV2.Valid e = true ↔ Z.even (JITCodeEntryV2.seqlock e) = true) ∧
  (∀ (T : Type) (C : CodeEntryT T) ts (c : WalkConf) n l s bs s1,
     rtc (walk_step h w ts) c (S n, l, s) →
     current_entry_addr l ≠ 0 →
     ReadRemoteMem h w (current_entry_addr l) sizeof_entry s = (Some bs, s1) →
     Valid (decode_entry bs) = false →
     (ReadNewCodeEntriesImpl_loop h w c.1.1 ts c.1.2 c.2).1.1 = false) ∧
  (∀ (T : Type) (C : CodeEntryT T) ts l s bs s1,
     current_entry_addr l ≠ 0 →
     current_entry_addr l ∉ entry_addr_set l →
     ReadRemoteMem h w (current_entry_addr l) sizeof_entry s = (Some bs, s1) →
     prev_addr (decode_entry bs) = prev_entry_addr l →
     Valid (decode_entry bs) = true →
     ts < register_timestamp (decode_entry bs) →
     ∃ l',
       ReadNewCodeEntriesImpl_body h w ts l s = (WalkNext l', s1) ∧
       current_entry_addr l' = next_addr (decode_entry bs) ∧
       (symfile_size (decode_entry bs) ≤ 0 →
        new_code_entries l' = new_code_entries l) ∧
       (0 < symfile_size (decode_entry bs) →
        new_code_entries l' =
        new_code_entries l ++
          [CodeEntry.mk (current_entry_addr l) (symfile_addr (decode_entry bs))
                        (symfile_size (decode_entry bs))
                        (register_timestamp (decode_entry bs))])) ∧
  (∀ descriptor ts limit new_code_entries s,
     ∃ new,
       (ReadNewCodeEntries h w descriptor ts limit new_code_entries s).1.2
       = new_code_entries ++ new ∧
       Forall (λ e, 0 < CodeEntry.symfile_size e) new) ∧
  (∀ new_descriptor debug_info s,
     let old := old_descriptor (Descriptor.type new_descriptor) (process s) in
     let read_entry_limit :=
       u32 (Descriptor.action_seqlock new_descriptor - Descriptor.action_seqlock old) / 2 in
     (ReadNewCodeEntries h w new_descriptor (Descriptor.action_timestamp old)
        read_entry_limit [] s).1.1 = false →
     let '(ok, debug_info', s') := ReadDebugInfo h w cfg new_descriptor debug_info s in
     ok = true ∧ debug_info' = debug_info ∧ last_descriptors s' = last_descriptors s).
Proof.
  split_and!.
  - intros e. unfold JITCodeEntry.Valid. rewrite andb_true_iff, !Z.ltb_lt. done.
  - intros e. unfold JITCodeEntryV2.Valid. by rewrite land_1_even.
  - intros T C ts c n l s bs s1 Hreach Hcur Hread Hinvalid.
    rewrite (walk_steps_loop ts c (S n, l, s) Hreach). simpl.
    unfold bind, ReadNewCodeEntriesImpl_body, ret.
    apply Z.eqb_neq in Hcur. rewrite Hcur.
    destruct (bool_decide _); [done |].
    unfold bind. rewrite Hread, Hinvalid. simpl. by rewrite orb_true_r.
  - intros T C ts l s bs s1 Hcur Hfresh Hread Hprev Hvalid Hts.
    unfold ReadNewCodeEntriesImpl_body, bind, ret.
    apply Z.eqb_neq in Hcur. rewrite Hcur.
    rewrite bool_decide_eq_false_2 by done.
    rewrite Hread, Hprev, Z.eqb_refl, Hvalid. cbn [negb orb].
    apply Z.leb_gt in Hts. rewrite Hts.
    eexists. split; [reflexivity |]. cbn [current_entry_addr new_code_entries].
    split_and!; [done | |].
    + intros Hzero. apply Z.ltb_ge in Hzero. by rewrite Hzero.
    + intros Hpos. apply Z.ltb_lt in Hpos. by rewrite Hpos.
  - intros descriptor ts limit new_code_entries s.
    destruct (ReadNewCodeEntries_gathers descriptor ts limit new_code_entries s)
      as (new & Heq & Hall & _).
    exists new. split; [done |]. eapply Forall_impl; [exact Hall |]. cbn. tauto.
  - apply ReadDebugInfo_failed_walk.
Qed.


(** ** JIT symfile ingestion *)

Lemma GetTempSymFile_spec jit_entry s :
  let '(r, s') := GetTempSymFile w cfg jit_entry s in
  now s' = now s ∧ process s' = process s ∧
  match r with
  | Some sel => is_Some (get_symfile sel s')
  | None => ∃ path, fopen_ok w path = false
  end.
Proof.
  unfold GetTempSymFile.
  destruct (in_zygote_cache _ _); simpl.
  - destruct (zygote_symfile_ s) as [f|] eqn:E; simpl; [by rewrite E |].
    unfold TempSymFile.Create.
    destruct (fopen_ok w _) eqn:Eo; simpl; eauto.
  - destruct (app_symfile_ s) as [f|] eqn:E; simpl; [by rewrite E |].
    unfold TempSymFile.Create.
    destruct (fopen_ok w _) eqn:Eo; simpl; eauto.
Qed.

Lemma ReadJITCodeDebugInfo_loop_cons jit_entry rest debug_info s :
  ReadJITCodeDebugInfo_loop h w cfg (jit_entry :: rest) debug_info s =
  match ReadJITCodeDebugInfo_body h w cfg jit_entry debug_info s with
  | (Some debug_info', s') => ReadJITCodeDebugInfo_loop h w cfg rest debug_info' s'
  | (None, s') => (false, debug_info, s')
  end.
Proof.
  simpl. unfold bind. by destruct (ReadJITCodeDebugInfo_body _ _ _ _ _ _) as [[?|] ?].
Qed.

Lemma ReadJITCodeDebugInfo_cons jit_entry rest debug_info s :
  ReadJITCodeDebugInfo h w cfg (jit_entry :: rest) debug_info s =
  match ReadJITCodeDebugInfo_body h w cfg jit_entry debug_info s with
  | (Some debug_info', s') => ReadJITCodeDebugInfo h w cfg rest debug_info' s'
  | (None, s') => (false, debug_info, s')
  end.
Proof.
  unfold ReadJITCodeDebugInfo, bind at 1. rewrite ReadJITCodeDebugInfo_loop_cons.
  by destruct (ReadJITCodeDebugInfo_body _ _ _ _ _ _) as [[?|] ?].
Qed.

Lemma ReadJITCodeDebugInfo_body_skip jit_entry debug_info s :
  MAX_JIT_SYMFILE_SIZE < CodeEntry.symfile_size jit_entry →
  ReadJITCodeDebugInfo_body h w cfg jit_entry debug_info s = (Some debug_info, s).
Proof.
  intros Hbig. unfold ReadJITCodeDebugInfo_body.
  apply Z.ltb_lt in Hbig. by rewrite Hbig.
Qed.

Lemma ReadJITCodeDebugInfo_body_now jit_entry debug_info s :
  CodeEntry.symfile_size jit_entry ≤ MAX_JIT_SYMFILE_SIZE →
  now (ReadJITCodeDebugInfo_body h w cfg jit_entry debug_info s).2 = S (now s).
Proof.
  intros Hsmall. unfold ReadJITCodeDebugInfo_body.
  apply Z.ltb_ge in Hsmall. rewrite Hsmall. unfold bind, ret.
  pose proof (ReadRemoteMem_now (CodeEntry.symfile_addr jit_entry)
                (CodeEntry.symfile_size jit_entry) s) as Hn.
  destruct (ReadRemoteMem _ _ _ _ s) as [[data|] s1]; cbn in *; [| done].
  destruct (negb _); [done |].
  pose proof (GetTempSymFile_spec jit_entry s1) as Hg.
  destruct (GetTempSymFile w cfg jit_entry s1) as [[sel|] s2]; destruct Hg as (Hn2 & _ & Hf);
    cbn; [| congruence].
  destruct Hf as [f Hf]. rewrite Hf. cbn.
  destruct (TempSymFile.WriteEntry _ _ _ _); cbn; [| congruence].
  destruct sel; cbn; congruence.
Qed.

Lemma ReadJITCodeDebugInfo_body_short_read jit_entry debug_info s s1 :
  CodeEntry.symfile_size jit_entry ≤ MAX_JIT_SYMFILE_SIZE →
  ReadRemoteMem h w (CodeEntry.symfile_addr jit_entry) (CodeEntry.symfile_size jit_entry) s
  = (None, s1) →
  ReadJITCodeDebugInfo_body h w cfg jit_entry debug_info s = (Some debug_info, s1).
Proof.
  intros Hsmall Hread. unfold ReadJITCodeDebugInfo_body.
  apply Z.ltb_ge in Hsmall. rewrite Hsmall. unfold bind. by rewrite Hread.
Qed.


Lemma ReadJITCodeDebugInfo_body_fatal jit_entry debug_info s s' :
  ReadJITCodeDebugInfo_body h w cfg jit_entry debug_info s = (None, s') →
  (∃ path, fopen_ok w path = false) ∨
  (∃ path offset, fwrite_ok w path offset (CodeEntry.symfile_size jit_entry) = false).
Proof.
  unfold ReadJITCodeDebugInfo_body.
  destruct (_ <? _); [done |]. unfold bind, ret.
  destruct (ReadRemoteMem _ _ _ _ s) as [[data|] s1]; [| done].
  destruct (negb _); [done |].
  pose proof (GetTempSymFile_spec jit_entry s1) as Hg.
  destruct (GetTempSymFile w cfg jit_entry s1) as [[sel|] s2]; destruct Hg as (_ & _ & Hf);
    cbn; [| by left].
  destruct Hf as [f Hf]. rewrite Hf. cbn.
  unfold TempSymFile.WriteEntry.
  destruct (fwrite_ok w _ _ _) eqn:Ew; [done |]. right. eauto.
Qed.



Lemma ReadJITCodeDebugInfo_fst jit_entries debug_info s :
  (ReadJITCodeDebugInfo h w cfg jit_entries debug_info s).1.1 =
  (ReadJITCodeDebugInfo_loop h w cfg jit_entries debug_info s).1.1.
Proof.
  unfold ReadJITCodeDebugInfo, bind.
  destruct (ReadJITCodeDebugInfo_loop h w cfg jit_entries debug_info s) as [[ok di] s'].
  by destruct ok.
Qed.

(** Where one iteration returns [false]: the symfile was read in full
    and has a valid magic, and storing it fails. *)
Lemma ReadJITCodeDebugInfo_body_None_iff jit_entry debug_info s :
  (ReadJITCodeDebugInfo_body h w cfg jit_entry debug_info s).1 = None ↔
  CodeEntry.symfile_size jit_entry ≤ MAX_JIT_SYMFILE_SIZE ∧
  ∃ data s1,
    ReadRemoteMem h w (CodeEntry.symfile_addr jit_entry)
      (CodeEntry.symfile_size jit_entry) s = (Some data, s1) ∧
    IsValidElfFileMagic w data (CodeEntry.symfile_size jit_entry) = true ∧
    scratch_fails w cfg jit_entry s1 = true.
Proof.
  unfold ReadJITCodeDebugInfo_body.
  destruct (Z.ltb_spec MAX_JIT_SYMFILE_SIZE (CodeEntry.symfile_size jit_entry)) as [Hbig|Hsmall].
  { split; [done | lia]. }
  unfold bind, ret.
  destruct (ReadRemoteMem h w _ _ s) as [[data|] s1] eqn:Hread.
  2: { split; [done |]. by intros (_ & data & s1' & [=] & _). }
  destruct (IsValidElfFileMagic w data _) eqn:Hmagic; cbn [negb].
  2: { split; [done |]. intros (_ & d & s' & [= <- <-] & Hm & _). congruence. }
  transitivity (scratch_fails w cfg jit_entry s1 = true).
  2: { split.
       - intros Hf. split; [done |]. by exists data, s1.
       - by intros (_ & d & s' & [= <- <-] & _ & Hf). }
  unfold GetTempSymFile, scratch_fails, symfile_of, symfile_path, TempSymFile.Create,
    TempSymFile.WriteEntry, TempSymFile.GetOffset.
  destruct (in_zygote_cache _ _); cbn [get_symfile set_symfile].
  - destruct (zygote_symfile_ s1) as [f|] eqn:Ef; cbn.
    + rewrite ?Ef. cbn. rewrite ?Ef. cbn. by destruct (fwrite_ok w _ _ _).
    + destruct (fopen_ok w _); cbn; [| done]. by destruct (fwrite_ok w _ _ _).
  - destruct (app_symfile_ s1) as [f|] eqn:Ef; cbn.
    + rewrite ?Ef. cbn. rewrite ?Ef. cbn. by destruct (fwrite_ok w _ _ _).
    + destruct (fopen_ok w _); cbn; [| done]. by destruct (fwrite_ok w _ _ _).
Qed.

(** The batch returns [false] at the first entry whose iteration does. *)
Lemma ReadJITCodeDebugInfo_loop_false_iff jit_entries debug_info s :
  (ReadJITCodeDebugInfo_loop h w cfg jit_entries debug_info s).1.1 = false ↔
  ∃ i jit_entry debug_info1 s1,
    jit_entries !! i = Some jit_entry ∧
    ReadJITCodeDebugInfo_loop h w cfg (take i jit_entries) debug_info s
    = (true, debug_info1, s1) ∧
    (ReadJITCodeDebugInfo_body h w cfg jit_entry debug_info1 s1).1 = None.
Proof.
  revert debug_info s. induction jit_entries as [|e rest IH]; intros debug_info s.
  { split; [done |]. by intros (i & e & di1 & s1 & Hi & _). }
  rewrite ReadJITCodeDebugInfo_loop_cons.
  destruct (ReadJITCodeDebugInfo_body h w cfg e debug_info s) as [[di'|] s'] eqn:Hbody.
  - rewrite IH. split.
    + intros (i & e' & di1 & s1 & Hi & Hloop & Hnone).
      exists (S i), e', di1, s1. split_and!; [done | | done].
      cbn [take]. rewrite ReadJITCodeDebugInfo_loop_cons. by rewrite Hbody.
    + intros (i & e' & di1 & s1 & Hi & Hloop & Hnone).
      destruct i as [|i].
      * cbn in Hi, Hloop. injection Hi as <-. injection Hloop as <- <-.
        rewrite Hbody in Hnone. done.
      * exists i, e', di1, s1. split_and!; [done | | done].
        cbn [take] in Hloop. rewrite ReadJITCodeDebugInfo_loop_cons in Hloop.
        by rewrite Hbody in Hloop.
  - split; [| done]. intros _. exists 0%nat, e, debug_info, s.
    split_and!; [done | done |]. by rewrite Hbody.
Qed.

(** C9: a short read of one entry's symfile marks the process died and
    the batch goes on with the remaining entries.  One iteration
    returns [false] exactly when the symfile was read in full, has a
    valid magic and cannot be stored: the scratch file the entry goes
    to cannot be created under its path, or does not take the entry's
    bytes at its offset.  The function returns [false] exactly when
    that happens to one of its entries, the entries before it having
    been processed. *)
Theorem C9_short_read_keeps_batch jit_entries debug_info s :
  (∀ jit_entry rest s1,
     jit_entries = jit_entry :: rest →
     CodeEntry.symfile_size jit_entry ≤ MAX_JIT_SYMFILE_SIZE →
     ReadRemoteMem h w (CodeEntry.symfile_addr jit_entry)
       (CodeEntry.symfile_size jit_entry) s = (None, s1) →
     Process.died (process s1) = true ∧
     ReadJITCodeDebugInfo h w cfg jit_entries debug_info s =
     ReadJITCodeDebugInfo h w cfg rest debug_info s1) ∧
  (∀ jit_entry,
     (ReadJITCodeDebugInfo_body h w cfg jit_entry debug_info s).1 = None ↔
     CodeEntry.symfile_size jit_entry ≤ MAX_JIT_SYMFILE_SIZE ∧
     ∃ data s1,
       ReadRemoteMem h w (CodeEntry.symfile_addr jit_entry)
         (CodeEntry.symfile_size jit_entry) s = (Some data, s1) ∧
       IsValidElfFileMagic w data (CodeEntry.symfile_size jit_entry) = true ∧
       scratch_fails w cfg jit_entry s1 = true) ∧
  ((ReadJITCodeDebugInfo h w cfg jit_entries debug_info s).1.1 = false ↔
   ∃ i jit_entry debug_info0 s0 data s1,
     jit_entries !! i = Some jit_entry ∧
     ReadJITCodeDebugInfo_loop h w cfg (take i jit_entries) debug_info s
     = (true, debug_info0, s0) ∧
     CodeEntry.symfile_size jit_entry ≤ MAX_JIT_SYMFILE_SIZE ∧
     ReadRemoteMem h w (CodeEntry.symfile_addr jit_entry)
       (CodeEntry.symfile_size jit_entry) s0 = (Some data, s1) ∧
     IsValidElfFileMagic w data (CodeEntry.symfile_size jit_entry) = true ∧
     scratch_fails w cfg jit_entry s1 = true).
Proof.
  split_and!.
  - intros jit_entry rest s1 -> Hsmall Hread. split.
    + by eapply ReadRemoteMem_None_died.
    + rewrite ReadJITCodeDebugInfo_cons.
      by rewrite (ReadJITCodeDebugInfo_body_short_read jit_entry debug_info s s1).
  - intros jit_entry. apply ReadJITCodeDebugInfo_body_None_iff.
  - rewrite ReadJITCodeDebugInfo_fst, ReadJITCodeDebugInfo_loop_false_iff. split.
    + intros (i & e & di0 & s0 & Hi & Hloop & Hnone).
      apply ReadJITCodeDebugInfo_body_None_iff in Hnone
        as (Hsmall & data & s1 & Hread & Hmagic & Hfail).
      by exists i, e, di0, s0, data, s1.
    + intros (i & e & di0 & s0 & data & s1 & Hi & Hloop & Hsmall & Hread & Hmagic & Hfail).
      exists i, e, di0, s0. split_and!; [done | done |].
      apply ReadJITCodeDebugInfo_body_None_iff. split; [done |]. by exists data, s1.
Qed.

(** ** Dex entries *)

Lemma u64_small x : 0 ≤ x < 2 ^ 64 → u64 x = x.
Proof. intros Hx. unfold u64. by apply Z.mod_small. Qed.

Lemma ReadDexFileDebugInfo_loop_omap pid thread_mmaps dex_entries debug_info :
  ReadDexFileDebugInfo_loop w pid thread_mmaps dex_entries debug_info =
  debug_info ++ omap (ReadDexFileDebugInfo_body w pid thread_mmaps) dex_entries.
Proof.
  revert debug_info. induction dex_entries as [|e es IH]; intros debug_info; simpl.
  - by rewrite app_nil_r.
  - destruct (ReadDexFileDebugInfo_body w pid thread_mmaps e); rewrite IH; [| done].
    by rewrite <- app_assoc.
Qed.

(** Over a memory map sorted by start address, for an entry whose
    [symfile_addr + symfile_size] does not wrap around 64 bits, an
    emitted record comes from the last mapping that starts at or below
    [symfile_addr]; that mapping's half-open range holds
    [[symfile_addr, symfile_addr + symfile_size)] and the emitted
    offset is [symfile_addr - start + pgoff]; without such a mapping
    the entry yields no record.  The records appended by
    [ReadDexFileDebugInfo] are those of its entries, in order. *)
Lemma dex_entry_mapping_without_wrap pid thread_mmaps dex_entry :
  sorted_by_start thread_mmaps = true →
  forallb mapping_in_range thread_mmaps = true →
  0 ≤ CodeEntry.symfile_addr dex_entry →
  0 ≤ CodeEntry.symfile_size dex_entry →
  CodeEntry.symfile_addr dex_entry + CodeEntry.symfile_size dex_entry < 2 ^ 64 →
  (∀ info,
     ReadDexFileDebugInfo_body w pid thread_mmaps dex_entry = Some info →
     ∃ i map file_path extracted_dex_file_map,
       chosen_mapping thread_mmaps dex_entry i map ∧
       info = JITDebugInfo.JIT_DEBUG_DEX_FILE pid (CodeEntry.timestamp dex_entry)
                (CodeEntry.symfile_addr dex_entry - ThreadMmap.start_addr map
                 + ThreadMmap.pgoff map)
                file_path extracted_dex_file_map) ∧
  ((¬ ∃ i map, chosen_mapping thread_mmaps dex_entry i map) →
     ReadDexFileDebugInfo_body w pid thread_mmaps dex_entry = None) ∧
  (∀ dex_entries debug_info s,
     Process.pid (process s) = pid →
     GetThreadMmapsInProcess w (now s) pid = Some thread_mmaps →
     (ReadDexFileDebugInfo w dex_entries debug_info s).1 =
     debug_info ++ omap (ReadDexFileDebugInfo_body w pid thread_mmaps) dex_entries).
Proof.
  intros Hsorted Hrange Haddr Hsize Hnowrap.
  assert (Hmain : ∀ info,
     ReadDexFileDebugInfo_body w pid thread_mmaps dex_entry = Some info →
     ∃ i map file_path extracted_dex_file_map,
       chosen_mapping thread_mmaps dex_entry i map ∧
       info = JITDebugInfo.JIT_DEBUG_DEX_FILE pid (CodeEntry.timestamp dex_entry)
                (CodeEntry.symfile_addr dex_entry - ThreadMmap.start_addr map
                 + ThreadMmap.pgoff map)
                file_path extracted_dex_file_map).
  { intros info. unfold ReadDexFileDebugInfo_body.
    pose proof (lower_bound_spec comp thread_mmaps (CodeEntry.symfile_addr dex_entry)
                  (λ i j, comp_partitioned thread_mmaps _ i j Hsorted)) as Hlb.
    cbv zeta in Hlb.
    set (it := lower_bound comp thread_mmaps (CodeEntry.symfile_addr dex_entry)) in *.
    destruct Hlb as (Hlen & Hlo & Hhi).
    destruct (Nat.eqb_spec it 0) as [|Hit]; [done |].
    destruct (thread_mmaps !! (it - 1)%nat) as [map|] eqn:Emap; [| done].
    assert (Hstart : ThreadMmap.start_addr map ≤ CodeEntry.symfile_addr dex_entry).
    { specialize (Hlo (it - 1)%nat ltac:(lia)). unfold below in Hlo.
      rewrite Emap in Hlo. by apply Z.leb_le in Hlo. }
    assert (Hin : mapping_in_range map = true).
    { rewrite forallb_forall in Hrange. apply Hrange, list_elem_of_In.
      by eapply list_elem_of_lookup_2. }
    unfold mapping_in_range in Hin.
    rewrite !andb_true_iff, !Z.leb_le, !Z.ltb_lt in Hin.
    destruct Hin as ((((Hs0 & Hl0) & Hp0) & Hend) & Hfile).
    rewrite !(u64_small (ThreadMmap.start_addr map + ThreadMmap.len map)) by lia.
    rewrite !(u64_small (CodeEntry.symfile_addr dex_entry
                         + CodeEntry.symfile_size dex_entry)) by lia.
    destruct (Z.ltb_spec (ThreadMmap.start_addr map + ThreadMmap.len map)
                (CodeEntry.symfile_addr dex_entry + CodeEntry.symfile_size dex_entry))
      as [|Hfit]; [done |].
    rewrite (u64_small (CodeEntry.symfile_addr dex_entry - ThreadMmap.start_addr map))
      by lia.
    rewrite u64_small by lia.
    assert (Hchosen : chosen_mapping thread_mmaps dex_entry (it - 1) map).
    { split_and!; try done. intros j map' Hj Hle.
      destruct (decide (j ≤ it - 1)%nat) as [|Hgt]; [done |].
      specialize (Hhi j ltac:(lia)). unfold below in Hhi. rewrite Hj in Hhi.
      apply Z.leb_gt in Hhi. lia. }
    destruct (ParseExtractedInMemoryPath w _) as [[zip_path entry_path]|].
    - intros [= <-]. by eexists _, _, _, _.
    - destruct (negb _); [done |]. intros [= <-]. by eexists _, _, _, _. }
  split_and!; [done | |].
  - intros Hnone.
    destruct (ReadDexFileDebugInfo_body w pid thread_mmaps dex_entry) as [info|] eqn:E;
      [| done].
    destruct (Hmain info eq_refl) as (i & map & _ & _ & Hc & _).
    destruct Hnone. by exists i, map.
  - intros dex_entries debug_info s Hpid Hmaps. unfold ReadDexFileDebugInfo.
    rewrite Hpid, Hmaps. cbn. rewrite Hpid. apply ReadDexFileDebugInfo_loop_omap.
Qed.

(** ** The read limit *)

Lemma IsDescriptorChanged_now prev s :
  now (IsDescriptorChanged h w prev s).2 = S (now s).
Proof.
  rewrite IsDescriptorChanged_eq.
  pose proof (ReadDescriptors_now Descriptor.init Descriptor.init s) as Hn.
  by destruct (ReadDescriptors h w _ _ s).
Qed.

Lemma ReadJITCodeDebugInfo_now_le jit_entries debug_info s :
  (now s ≤ now (ReadJITCodeDebugInfo h w cfg jit_entries debug_info s).2)%nat ∧
  (now (ReadJITCodeDebugInfo h w cfg jit_entries debug_info s).2
   ≤ now s + length jit_entries)%nat.
Proof.
  revert debug_info s. induction jit_entries as [|e rest IH]; intros debug_info s.
  { unfold ReadJITCodeDebugInfo, bind. cbn. lia. }
  rewrite ReadJITCodeDebugInfo_cons.
  assert ((now s ≤ now (ReadJITCodeDebugInfo_body h w cfg e debug_info s).2)%nat ∧
          (now (ReadJITCodeDebugInfo_body h w cfg e debug_info s).2 ≤ S (now s))%nat)
    as Hbody.
  { destruct (Z.lt_ge_cases MAX_JIT_SYMFILE_SIZE (CodeEntry.symfile_size e)) as [Hbig|Hsmall].
    - rewrite ReadJITCodeDebugInfo_body_skip by done. cbn. lia.
    - rewrite ReadJITCodeDebugInfo_body_now by done. lia. }
  destruct (ReadJITCodeDebugInfo_body h w cfg e debug_info s) as [[di1|] s1];
    cbn [snd] in Hbody.
  - specialize (IH di1 s1). cbn [length]. lia.
  - cbn [snd length]. lia.
Qed.

Lemma ReadDexFileDebugInfo_bounds dex_entries debug_info s :
  now (ReadDexFileDebugInfo w dex_entries debug_info s).2 = S (now s) ∧
  (length (ReadDexFileDebugInfo w dex_entries debug_info s).1
   ≤ length debug_info + length dex_entries)%nat.
Proof.
  unfold ReadDexFileDebugInfo.
  destruct (GetThreadMmapsInProcess w _ _) as [thread_mmaps|]; cbn [fst snd];
    [| split; [done | lia]].
  split; [done |]. rewrite ReadDexFileDebugInfo_loop_omap, length_app.
  apply Nat.add_le_mono_l.
  generalize (ReadDexFileDebugInfo_body w (Process.pid (process (tick s))) thread_mmaps).
  intros f. induction dex_entries as [|e rest IH]; simpl; [lia |].
  destruct (f e); simpl; [apply le_n_S, IH | apply Nat.le_le_succ_r, IH].
Qed.

Local Ltac c3_finish type :=
  split_and!; cbn -[Nat.sub Nat.add Z.of_nat Z.add]; try done; try lia;
  try (destruct type; cbn -[Nat.sub Nat.add Z.of_nat Z.add]; first [done | lia]).

(** C3: [ReadDebugInfo] walks the list with the read limit
    [(new.action_seqlock - old.action_seqlock) / 2], the difference
    being taken on 32 bits.  The walk it runs makes [hops] reads of
    entries; it ends within the limit whatever the target's memory
    holds, and gathers no more entries than it has read.  These hops
    are all the list reads of [ReadDebugInfo]: besides them it observes
    the target once for the second read of the descriptors and then
    once per gathered JIT entry, or once for the memory map of the DEX
    entries; so its observations, and the DEX records it adds, stay
    within bounds given by the seqlock difference alone. *)
Theorem C3_walk_within_read_entry_limit new_descriptor debug_info s :
  let type := Descriptor.type new_descriptor in
  let old := old_descriptor type (process s) in
  let read_entry_limit :=
    u32 (Descriptor.action_seqlock new_descriptor - Descriptor.action_seqlock old) / 2 in
  let walk :=
    ReadNewCodeEntries h w new_descriptor (Descriptor.action_timestamp old)
      read_entry_limit [] s in
  let hops := (now walk.2 - now s)%nat in
  let '(ok, debug_info', s') := ReadDebugInfo h w cfg new_descriptor debug_info s in
  (now s ≤ now walk.2)%nat ∧
  Z.of_nat hops ≤ read_entry_limit ∧
  (length walk.1.2 ≤ hops)%nat ∧
  (now s ≤ now s')%nat ∧
  (now s' ≤ now s + hops + 1
            + match type with kJIT => length walk.1.2 | kDEX => 1 end)%nat ∧
  (Descriptor.action_seqlock new_descriptor ≠ Descriptor.action_seqlock old →
   Z.even (Descriptor.action_seqlock new_descriptor) = true →
   (now s + hops ≤ now s')%nat) ∧
  Z.of_nat (now s' - now s)
  ≤ read_entry_limit + 1 + match type with kJIT => read_entry_limit | kDEX => 1 end ∧
  match type with
  | kJIT => True
  | kDEX => Z.of_nat (length debug_info' - length debug_info) ≤ read_entry_limit
  end.
Proof.
  intros type old read_entry_limit walk hops.
  pose proof (ReadNewCodeEntries_hops new_descriptor (Descriptor.action_timestamp old)
                read_entry_limit [] s) as Hw.
  assert (0 ≤ read_entry_limit) as Hpos.
  { unfold read_entry_limit, u32. apply Z.div_pos; [| lia].
    apply Z.mod_pos_bound. lia. }
  unfold ReadDebugInfo. cbv zeta. fold type. fold old. fold read_entry_limit.
  fold walk. fold walk in Hw. unfold hops. clear hops.
  clearbody walk. clearbody read_entry_limit. clearbody old. clearbody type.
  destruct walk as [[okw entries] s1]. cbn [fst snd] in *.
  destruct Hw as (Hle & Hn & Hl). cbn [length] in Hl.
  rewrite land_1_even.
  destruct (Z.eqb_spec (Descriptor.action_seqlock new_descriptor)
              (Descriptor.action_seqlock old)) as [Heq|Hne]; cbn [negb andb].
  { c3_finish type. }
  destruct (Z.even (Descriptor.action_seqlock new_descriptor)) eqn:Heven; cbn [negb].
  2: { c3_finish type. }
  destruct okw; cbn [negb].
  2: { c3_finish type. }
  pose proof (IsDescriptorChanged_now new_descriptor s1) as Hc.
  destruct (IsDescriptorChanged h w new_descriptor s1) as [changed s2]. cbn [snd] in Hc.
  destruct changed.
  { c3_finish type. }
  destruct entries as [|e entries].
  { cbn [negb snd length]. c3_finish type. }
  destruct type.
  - pose proof (ReadDexFileDebugInfo_bounds (e :: entries) debug_info s2) as [Hd Hlen].
    destruct (ReadDexFileDebugInfo w (e :: entries) debug_info s2) as [di s3].
    cbn [fst snd negb length] in *. c3_finish kDEX.
  - pose proof (ReadJITCodeDebugInfo_now_le (e :: entries) debug_info s2) as [Hj1 Hj2].
    destruct (ReadJITCodeDebugInfo h w cfg (e :: entries) debug_info s2) as [[okj di] s3].
    cbn [fst snd length] in *.
    destruct okj; cbn [negb snd]; c3_finish kJIT.
Qed.

(** ** Delivery *)

Lemma FlushDebugInfo_loop_first fuel timestamp q acc top :
  pq_top q = Some top → JITDebugInfo.timestamp top < timestamp → (length q ≤ fuel)%nat →
  (FlushDebugInfo_loop fuel timestamp q acc).2 ≠ acc.
Proof.
  intros Etop Hlt Hlen. destruct fuel as [|fuel].
  { destruct q; [done | simpl in Hlen; lia]. }
  simpl. rewrite Etop. apply Z.ltb_lt in Hlt. rewrite Hlt.
  destruct (FlushDebugInfo_loop_spec fuel timestamp (pq_pop q) (acc ++ [top]))
    as (batch & -> & _).
  { pose proof (pq_pop_perm q top Etop) as Hp. apply Permutation_length in Hp.
    simpl in Hp. lia. }
  rewrite <- app_assoc. intros Heq.
  apply (f_equal length) in Heq. rewrite length_app in Heq. simpl in Heq. lia.
Qed.

Lemma FlushDebugInfo_spec timestamp s :
  let s' := (FlushDebugInfo w cfg timestamp s).2 in
  ∃ batch,
    debug_info_q_ s ≡ₚ batch ++ debug_info_q_ s' ∧
    Forall (λ x, JITDebugInfo.timestamp x < timestamp) batch ∧
    StronglySorted Z.le (JITDebugInfo.timestamp <$> batch) ∧
    delivered s' = delivered s ++ batch_log batch ∧
    (sync_option_ cfg = kSyncWithRecords →
     Forall (λ x, timestamp ≤ JITDebugInfo.timestamp x) (debug_info_q_ s')) ∧
    (sync_option_ cfg ≠ kSyncWithRecords → batch = []).
Proof.
  unfold FlushDebugInfo.
  assert (Hnil : ∀ P : Prop, P →
    ∃ batch, debug_info_q_ s ≡ₚ batch ++ debug_info_q_ s ∧
      Forall (λ x, JITDebugInfo.timestamp x < timestamp) batch ∧
      StronglySorted Z.le (JITDebugInfo.timestamp <$> batch) ∧
      delivered s = delivered s ++ batch_log batch ∧
      (sync_option_ cfg = kSyncWithRecords → P) ∧
      (sync_option_ cfg ≠ kSyncWithRecords → batch = [])).
  { intros P HP. exists []. simpl. rewrite app_nil_r. split_and!; try done; constructor. }
  destruct (sync_option_ cfg) eqn:Esync; simpl.
  { destruct (Hnil True I) as (b & ? & ? & ? & ? & _ & ?). exists b. split_and!; done. }
  destruct (pq_top (debug_info_q_ s)) as [top|] eqn:Etop; simpl.
  2:{ apply pq_top_None in Etop. apply Hnil. rewrite Etop. constructor. }
  destruct (Z.ltb_spec (JITDebugInfo.timestamp top) timestamp) as [Hlt|Hge]; simpl.
  2:{ apply Hnil. apply pq_top_min in Etop as [_ Hmin].
      eapply Forall_impl; [done |]. simpl. intros; lia. }
  pose proof (FlushDebugInfo_loop_spec (length (debug_info_q_ s)) timestamp
                (debug_info_q_ s) [] (le_n _)) as (batch & Hout & Hp & Hb & Hq & Hs).
  pose proof (FlushDebugInfo_loop_first (length (debug_info_q_ s)) timestamp
                (debug_info_q_ s) [] top Etop Hlt (le_n _)) as Hne.
  destruct (FlushDebugInfo_loop _ _ _ _) as [q' out]. simpl in *. subst out.
  exists batch. split_and!; try done.
  destruct batch; done.
Qed.

Lemma AddDebugInfo_spec debug_info sync_kernel_records s :
  let s' := (AddDebugInfo w cfg debug_info sync_kernel_records s).2 in
  match sync_option_ cfg with
  | kSyncWithRecords =>
      debug_info_q_ s' = debug_info_q_ s ++ debug_info ∧ delivered s' = delivered s
  | _ =>
      debug_info_q_ s' = debug_info_q_ s ∧
      delivered s' =
      delivered s ++ match debug_info with
                     | [] => []
                     | _ :: _ => [(debug_info, sync_kernel_records)]
                     end
  end.
Proof.
  unfold AddDebugInfo. destruct debug_info as [|x l].
  - simpl. by destruct (sync_option_ cfg); rewrite !app_nil_r.
  - destruct (sync_option_ cfg); cbn -[foldl]; [done |].
    by rewrite (foldl_pq_push _ (x :: l)).
Qed.

Lemma delivered_timestamps_app s log :
  JITDebugInfo.timestamp <$> concat (fst <$> (delivered s ++ log)) =
  delivered_timestamps s ++ (JITDebugInfo.timestamp <$> concat (fst <$> log)).
Proof. unfold delivered_timestamps. by rewrite fmap_app, concat_app, fmap_app. Qed.

Lemma ordered_inv_run high evs s :
  sync_option_ cfg = kSyncWithRecords →
  timely high evs → ordered_inv high s →
  ∃ high', ordered_inv high' (run_events w cfg evs s).
Proof.
  intros Hsync. revert high s.
  induction evs as [|[debug_info sync|timestamp] evs IH]; intros high s Ht Hinv; simpl.
  - by exists high.
  - destruct Ht as [Hnew Ht]. apply (IH high); [done |].
    pose proof (AddDebugInfo_spec debug_info sync s) as Ha.
    rewrite Hsync in Ha. cbv zeta in Ha. destruct Ha as [Hq Hd].
    destruct Hinv as (Hpend & Hdel & Hsorted).
    unfold ordered_inv, delivered_timestamps. rewrite Hq, Hd.
    split_and!; [| done | done]. apply Forall_app. by split.
  - apply (IH (Z.max high timestamp)); [done |].
    destruct (FlushDebugInfo_spec timestamp s) as (batch & Hp & Hb & Hs & Hd & Hq & _).
    specialize (Hq Hsync).
    destruct Hinv as (Hpend & Hdel & Hsorted).
    assert (Hboth : Forall (λ x, high ≤ JITDebugInfo.timestamp x)
                      (batch ++ debug_info_q_ (FlushDebugInfo w cfg timestamp s).2))
      by (by rewrite <- Hp).
    apply Forall_app in Hboth as [Hbatch Hrest].
    assert (Hlog : JITDebugInfo.timestamp <$> concat (fst <$> batch_log batch)
                   = JITDebugInfo.timestamp <$> batch).
    { destruct batch; [done |]. simpl. by rewrite app_nil_r. }
    unfold ordered_inv. unfold delivered_timestamps at 1 2.
    rewrite Hd, delivered_timestamps_app, Hlog.
    split_and!.
    + rewrite Forall_forall in Hq, Hrest. apply Forall_forall. intros x Hx.
      specialize (Hq x Hx). specialize (Hrest x Hx). simpl in *. lia.
    + apply Forall_app. split.
      * eapply Forall_impl; [done |]. simpl. intros; lia.
      * rewrite Forall_fmap. eapply Forall_impl; [exact Hb |]. simpl. intros; lia.
    + apply StronglySorted_app. split_and!; [| done | done].
      intros x1 x2 Hx1 Hx2. rewrite Forall_forall in Hdel. specialize (Hdel x1 Hx1).
      apply list_elem_of_fmap in Hx2 as (y & -> & Hy).
      rewrite Forall_forall in Hbatch. specialize (Hbatch y Hy). simpl in *. lia.
Qed.

(** C6 (amended): in ordered mode a flush hands the consumer one batch,
    with the sync flag [false], of records whose timestamps are below
    the watermark and in non-decreasing order; [AddDebugInfo] hands it
    nothing.  Across flushes the delivered timestamps are
    non-decreasing when no record is queued with a timestamp below a
    watermark that was flushed before. *)
Theorem C6_ordered_delivery :
  sync_option_ cfg = kSyncWithRecords →
  (∀ timestamp s,
     let s' := (FlushDebugInfo w cfg timestamp s).2 in
     delivered s' = delivered s ∨
     ∃ batch,
       delivered s' = delivered s ++ [(batch, false)] ∧
       Forall (λ info, JITDebugInfo.timestamp info < timestamp) batch ∧
       StronglySorted Z.le (JITDebugInfo.timestamp <$> batch)) ∧
  (∀ debug_info sync_kernel_records s,
     delivered (AddDebugInfo w cfg debug_info sync_kernel_records s).2 = delivered s) ∧
  (∀ high evs s,
     debug_info_q_ s = [] → delivered s = [] → timely high evs →
     StronglySorted Z.le (delivered_timestamps (run_events w cfg evs s))).
Proof.
  intros Hsync. split_and!.
  - intros timestamp s.
    destruct (FlushDebugInfo_spec timestamp s) as (batch & _ & Hb & Hs & Hd & _).
    destruct batch as [|x batch].
    + left. simpl in Hd. by rewrite app_nil_r in Hd.
    + right. by exists (x :: batch).
  - intros debug_info sync s.
    pose proof (AddDebugInfo_spec debug_info sync s) as Ha.
    rewrite Hsync in Ha. apply Ha.
  - intros high evs s Hq Hd Ht.
    destruct (ordered_inv_run high evs s Hsync Ht) as (high' & _ & _ & Hsorted); [| done].
    unfold ordered_inv, delivered_timestamps. rewrite Hq, Hd. simpl.
    split_and!; constructor.
Qed.

(** C10: the consumer callback is never handed an empty batch.
    [AddDebugInfo] returns [true] without calling it when the vector is
    empty, and calls it only in immediate mode; [FlushDebugInfo] calls
    it exactly when the reader is in ordered mode and a queued record
    has a timestamp below the watermark. *)
Theorem C10_no_empty_batch :
  (∀ sync_kernel_records s,
     AddDebugInfo w cfg [] sync_kernel_records s = (true, s)) ∧
  (∀ debug_info sync_kernel_records s,
     let s' := (AddDebugInfo w cfg debug_info sync_kernel_records s).2 in
     delivered s' = delivered s ∨
     (sync_option_ cfg ≠ kSyncWithRecords ∧ debug_info ≠ [] ∧
      delivered s' = delivered s ++ [(debug_info, sync_kernel_records)])) ∧
  (∀ timestamp s,
     let s' := (FlushDebugInfo w cfg timestamp s).2 in
     let below :=
       sync_option_ cfg = kSyncWithRecords ∧
       ∃ info, info ∈ debug_info_q_ s ∧ JITDebugInfo.timestamp info < timestamp in
     (¬ below ∧ delivered s' = delivered s) ∨
     (below ∧ ∃ batch, batch ≠ [] ∧ delivered s' = delivered s ++ [(batch, false)])) ∧
  (∀ evs s,
     Forall (λ call, call.1 ≠ []) (delivered s) →
     Forall (λ call, call.1 ≠ []) (delivered (run_events w cfg evs s))).
Proof.
  assert (Hadd : ∀ debug_info sync_kernel_records s,
     let s' := (AddDebugInfo w cfg debug_info sync_kernel_records s).2 in
     delivered s' = delivered s ∨
     (sync_option_ cfg ≠ kSyncWithRecords ∧ debug_info ≠ [] ∧
      delivered s' = delivered s ++ [(debug_info, sync_kernel_records)])).
  { intros debug_info sync s.
    pose proof (AddDebugInfo_spec debug_info sync s) as Ha. cbv zeta in Ha |- *.
    destruct (sync_option_ cfg) eqn:Esync.
    - destruct Ha as [_ Hd]. destruct debug_info as [|x l].
      + left. by rewrite app_nil_r in Hd.
      + right. done.
    - left. apply Ha. }
  assert (Hflush : ∀ timestamp s,
     let s' := (FlushDebugInfo w cfg timestamp s).2 in
     let below :=
       sync_option_ cfg = kSyncWithRecords ∧
       ∃ info, info ∈ debug_info_q_ s ∧ JITDebugInfo.timestamp info < timestamp in
     (¬ below ∧ delivered s' = delivered s) ∨
     (below ∧ ∃ batch, batch ≠ [] ∧ delivered s' = delivered s ++ [(batch, false)])).
  { intros timestamp s.
    destruct (FlushDebugInfo_spec timestamp s) as (batch & Hp & Hb & _ & Hd & Hq & Hmode).
    cbv zeta. destruct batch as [|x batch].
    - left. simpl in Hd. rewrite app_nil_r in Hd. split; [| done].
      intros (Hsync & info & Hin & Hlt). specialize (Hq Hsync).
      rewrite Hp in Hin. simpl in Hin.
      rewrite Forall_forall in Hq. specialize (Hq info Hin). simpl in Hq. lia.
    - right. split.
      + split.
        * destruct (sync_option_ cfg); [| done]. by specialize (Hmode ltac:(done)).
        * exists x. split.
          -- rewrite Hp. apply list_elem_of_here.
          -- by apply Forall_cons in Hb as [? _].
      + by exists (x :: batch). }
  split_and!; [done | done | done |].
  intros evs. induction evs as [|[debug_info sync|timestamp] evs IH]; intros s Hs; simpl.
  - done.
  - apply IH. destruct (Hadd debug_info sync s) as [-> | (_ & Hne & ->)]; [done |].
    apply Forall_app. split; [done |]. by constructor.
  - apply IH. destruct (Hflush timestamp s) as [[_ ->] | (_ & batch & Hne & ->)]; [done |].
    apply Forall_app. split; [done |]. by constructor.
Qed.

End Facts.

(** ** Concrete runs *)

Import Fixture.

(** C2: a descriptor with [version == 1], the magic "Android1" and the
    right [sizeof_descriptor] is accepted although its [sizeof_entry],
    7, is not the size of a version-1 entry of a 32-bit target; the
    same holds for the DEX descriptor of a 64-bit target, whose tick
    goes on and emits the entry. *)
Theorem C2_mismatching_sizeof_entry_accepted (h : Host) :
  JITDescriptor.version odd_sized = 1 ∧
  JITDescriptor.AndroidVersion odd_sized = 1 ∧
  JITDescriptor.sizeof_descriptor odd_sized = JITDescriptor.sizeof h uint32_t ∧
  JITDescriptor.sizeof_entry odd_sized ≠ expected_sizeof_entry h uint32_t odd_sized ∧
  JITDescriptor_Valid h uint32_t odd_sized = true ∧
  ParseDescriptor h uint32_t odd_sized Descriptor.init =
  Some (Descriptor.mk kDEX 1 2 50 12288) ∧
  (ReadProcess aarch64 odd_sized_world (config kNoSync) [] start).1 =
  (true, [JITDebugInfo.JIT_DEBUG_DEX_FILE 7 100 64 "/data/app/base.vdex" None]).
Proof.
  split_and!.
  - reflexivity.
  - by vm_compute.
  - by destruct h.
  - destruct h; by vm_compute.
  - destruct h; by vm_compute.
  - destruct h; by vm_compute.
  - by vm_compute.
Qed.

(** C1, scenario: the seqlock of the DEX descriptor moves between the
    walk and the second read; the tick emits nothing and keeps the
    stored descriptors. *)
Lemma C1_race_discards_witness :
  let s := (ReadDescriptors aarch64 racing_world Descriptor.init Descriptor.init start).2 in
  let new_descriptor := Descriptor.mk kDEX 1 2 50 12288 in
  (ReadDebugInfo aarch64 racing_world (config kNoSync) new_descriptor [] s).1.2 = [] ∧
  last_descriptors (ReadDebugInfo aarch64 racing_world (config kNoSync) new_descriptor [] s).2
  = last_descriptors s.
Proof.
  intros s new_descriptor.
  pose proof (C1_commit_only_after_equal_reread aarch64 racing_world (config kNoSync)
                new_descriptor [] s) as H.
  cbv zeta in H.
  destruct (ReadDebugInfo aarch64 racing_world (config kNoSync) new_descriptor [] s)
    as [[ok debug_info'] s'].
  destruct H as (_ & H & _). apply H; by vm_compute.
Defined.

(** C3, scenario: the DEX list of the looping target never ends; with a
    seqlock difference of 2 [ReadDebugInfo] reads one entry of it,
    observes the target at most three times in all and adds at most
    one record. *)
Lemma C3_one_hop_witness :
  let s := tick start in
  let new_descriptor := Descriptor.mk kDEX 1 2 50 12288 in
  let walk := ReadNewCodeEntries aarch64 looping_world new_descriptor 0 1 [] s in
  let r := ReadDebugInfo aarch64 looping_world (config kNoSync) new_descriptor [] s in
  Z.of_nat (now walk.2 - now s) ≤ 1 ∧
  Z.of_nat (now r.2 - now s) ≤ 1 + 1 + 1 ∧
  Z.of_nat (length r.1.2 - 0) ≤ 1.
Proof.
  intros s new_descriptor walk r.
  pose proof (C3_walk_within_read_entry_limit aarch64 looping_world (config kNoSync)
                new_descriptor [] s) as H.
  cbv zeta in H. fold r in H. clearbody r. destruct r as [[ok debug_info'] s'].
  destruct H as (_ & Hhops & _ & _ & _ & _ & Hnow & Hlen).
  split_and!; [exact Hhops | exact Hnow | exact Hlen].
Defined.

(** C4: a version-2 entry with an even seqlock is valid although its
    symfile address and size are zero; the walk goes over it without
    gathering it, and the tick emits the entry behind it and stores the
    descriptor. *)
Lemma C4_counterexample :
  let e := JITCodeEntryV2.mk 12352 0 0 0 200 2 in
  JITCodeEntryV2.decode aarch64 uint64_t Natural
    (read_bytes zero_entry_mem 12288 48) = e ∧
  JITCodeEntryV2.Valid e = true ∧
  ¬ (0 < JITCodeEntryV2.symfile_addr e ∧ 0 < JITCodeEntryV2.symfile_size e ∧
     Z.even (JITCodeEntryV2.seqlock e) = true) ∧
  (ReadNewCodeEntries aarch64 zero_entry_world (Descriptor.mk kJIT 2 4 200 12288) 0 2 []
     (tick start)).1 = (true, [CodeEntry.mk 12352 24576 8 100]) ∧
  (ReadProcess aarch64 zero_entry_world (config kNoSync) [] start).1 =
  (true, [JITDebugInfo.JIT_DEBUG_JIT_CODE 7 100 256 32 "/tmp/perf_jit_app_cache:0-8" 0]) ∧
  Process.last_jit_descriptor
    (process (ReadProcess aarch64 zero_entry_world (config kNoSync) [] start).2)
  = Descriptor.mk kJIT 2 4 200 12288.
Proof.
  split_and!; try by vm_compute. simpl. lia.
Qed.

(** C4, scenario: the version-2 entry of the busy target has an odd
    seqlock when the walk reads it, and the walk returns [false]; the
    first entry of the other target is valid and has no symfile, and
    the walk goes on to its successor with nothing gathered. *)
Lemma C4_invalid_entry_witness :
  (ReadNewCodeEntriesImpl_loop aarch64 busy_entry_world (H := JITCodeEntry64V2 aarch64)
     1 0 (mkWalk 12288 0 ∅ []) (tick start)).1.1 = false ∧
  ∃ l',
    ReadNewCodeEntriesImpl_body aarch64 zero_entry_world (H := JITCodeEntry64V2 aarch64)
      0 (mkWalk 12288 0 ∅ []) (tick start) = (WalkNext l', tick (tick start)) ∧
    current_entry_addr l' = 12352 ∧ new_code_entries l' = [].
Proof.
  split.
  - destruct (C4_entry_validity aarch64 busy_entry_world (config kNoSync))
      as (_ & _ & H & _).
    eapply (H _ (JITCodeEntry64V2 aarch64) 0
              (1%nat, mkWalk 12288 0 ∅ [], tick start) 0%nat
              (mkWalk 12288 0 ∅ []) (tick start)).
    + apply rtc_refl.
    + done.
    + by vm_compute.
    + by vm_compute.
  - destruct (C4_entry_validity aarch64 zero_entry_world (config kNoSync))
      as (_ & _ & _ & H & _).
    pose (bs := default [] (ReadRemoteMem aarch64 zero_entry_world 12288 48 (tick start)).1).
    destruct (H _ (JITCodeEntry64V2 aarch64) 0 (mkWalk 12288 0 ∅ []) (tick start) bs
                (tick (tick start))) as (l' & Hbody & Hnext & Hzero & _).
    + done.
    + apply not_elem_of_empty.
    + by vm_compute.
    + by vm_compute.
    + by vm_compute.
    + by vm_compute.
    + exists l'. split_and!; [exact Hbody | by rewrite Hnext | apply Hzero; by vm_compute].
Defined.



(** C6: a record registered at 3 is queued after the flush at
    watermark 10 has delivered the record registered at 5; the next
    flush delivers it, so the delivered timestamps go down although the
    watermarks go up. *)
Lemma C6_counterexample :
  let s :=
    run_events flat_world (config kSyncWithRecords)
      [EvAdd [info 5] true; EvFlush 10; EvAdd [info 3] true; EvFlush 11] start in
  delivered s = [([info 5], false); ([info 3], false)] ∧
  delivered_timestamps s = [5; 3] ∧
  ¬ StronglySorted Z.le (delivered_timestamps s).
Proof.
  split_and!; try by vm_compute.
  change (¬ StronglySorted Z.le [5; 3]). intros Hs.
  apply StronglySorted_inv in Hs as [_ Hall]. apply Forall_inv in Hall. lia.
Qed.

(** C6, scenario: records are queued in time, and two flushes deliver
    3, then 4, 5 and 7. *)
Lemma C6_witness :
  StronglySorted Z.le
    (delivered_timestamps
       (run_events flat_world (config kSyncWithRecords)
          [EvAdd [info 5; info 3] true; EvFlush 4; EvAdd [info 7; info 4] false; EvFlush 10]
          start)).
Proof.
  destruct (C6_ordered_delivery flat_world (config kSyncWithRecords) eq_refl) as (_ & _ & H).
  apply (H 0); [done | done |].
  simpl. split_and!; repeat constructor; done.
Defined.


(** C8: the memory map is sorted and its only mapping is
    [[0x5000, 0x6000)]; the DEX entry of the target has its symfile at
    0x5000 and a size that wraps [symfile_addr + symfile_size] around
    to 0x4800, so the comparison with the end of the mapping does not
    reject it, and the tick emits a record although the mapping ends
    long before the symfile does. *)
Theorem C8_wrapped_entry_emitted :
  sorted_by_start [vdex] = true ∧
  forallb mapping_in_range [vdex] = true ∧
  0 < CodeEntry.symfile_size huge_entry < 2 ^ 64 ∧
  (ReadNewCodeEntries aarch64 wrapping_world (Descriptor.mk kDEX 1 2 50 12288) 0 1 []
     (tick start)).1 = (true, [huge_entry]) ∧
  ReadDexFileDebugInfo_body wrapping_world 7 [vdex] huge_entry =
  Some (JITDebugInfo.JIT_DEBUG_DEX_FILE 7 100 64 "/data/app/base.vdex" None) ∧
  (ReadProcess aarch64 wrapping_world (config kNoSync) [] start).1 =
  (true, [JITDebugInfo.JIT_DEBUG_DEX_FILE 7 100 64 "/data/app/base.vdex" None]) ∧
  ¬ (CodeEntry.symfile_addr huge_entry + CodeEntry.symfile_size huge_entry
     ≤ ThreadMmap.start_addr vdex + ThreadMmap.len vdex).
Proof. split_and!; by vm_compute. Qed.

(** Of the two mappings that start below the entry at 0x5100, the
    later one is chosen; it holds the symfile, and the offset is
    20736 - 20480 + 64. *)
Lemma dex_entry_mapping_example :
  ∃ i map file_path extracted_dex_file_map,
    chosen_mapping [odex; vdex] dex_entry i map ∧
    JITDebugInfo.JIT_DEBUG_DEX_FILE 7 100 320 "/data/app/base.vdex" None =
    JITDebugInfo.JIT_DEBUG_DEX_FILE 7 (CodeEntry.timestamp dex_entry)
      (CodeEntry.symfile_addr dex_entry - ThreadMmap.start_addr map + ThreadMmap.pgoff map)
      file_path extracted_dex_file_map.
Proof.
  destruct (dex_entry_mapping_without_wrap flat_world 7 [odex; vdex] dex_entry) as (H & _);
    try done.
  apply H. by vm_compute.
Qed.

(** C9, scenario: the symfile of the first entry cannot be read; the
    process is marked died, the second entry is still ingested and the
    function returns [true].  On a file system that refuses the scratch
    file, the same readable entry makes the function return
    [false]. *)
Lemma C9_witness :
  let unreadable := CodeEntry.mk 12352 28672 8 100 in
  let readable := CodeEntry.mk 12288 24576 8 200 in
  let s1 := (ReadRemoteMem aarch64 (two_entries_world true) 28672 8 start).2 in
  (Process.died (process s1) = true ∧
   ReadJITCodeDebugInfo aarch64 (two_entries_world true) (config kNoSync)
     [unreadable; readable] [] start =
   ReadJITCodeDebugInfo aarch64 (two_entries_world true) (config kNoSync)
     [readable] [] s1) ∧
  (ReadJITCodeDebugInfo aarch64 (two_entries_world true) (config kNoSync)
     [unreadable; readable] [] start).1 =
  (true, [JITDebugInfo.JIT_DEBUG_JIT_CODE 7 200 256 32 "/tmp/perf_jit_app_cache:0-8" 0]) ∧
  (ReadJITCodeDebugInfo aarch64 (two_entries_world false) (config kNoSync)
     [readable] [] start).1.1 = false.
Proof.
  intros unreadable readable s1. split; [| split; [by vm_compute |]].
  - destruct (C9_short_read_keeps_batch aarch64 (two_entries_world true) (config kNoSync)
                [unreadable; readable] [] start) as (H & _).
    apply (H unreadable [readable] s1); by vm_compute.
  - destruct (C9_short_read_keeps_batch aarch64 (two_entries_world false) (config kNoSync)
                [readable] [] start) as (_ & _ & H).
    apply H.
    exists 0%nat, readable, [], start,
      (default [] (ReadRemoteMem aarch64 (two_entries_world false) 24576 8 start).1),
      (tick start).
    split_and!; by vm_compute.
Defined.

(** C10, scenario: in immediate mode an empty vector leaves the log of
    the callback empty; in ordered mode a flush below every queued
    timestamp does the same, and a flush above one delivers it. *)
Lemma C10_witness :
  delivered (run_events flat_world (config kNoSync) [EvAdd [] true] start) = [] ∧
  delivered (run_events flat_world (config kSyncWithRecords)
               [EvAdd [info 5] true; EvFlush 5] start) = [] ∧
  Forall (λ call, call.1 ≠ [])
    (delivered (run_events flat_world (config kSyncWithRecords)
                  [EvAdd [info 5] true; EvFlush 5; EvFlush 6] start)).
Proof.
  split_and!; try by vm_compute.
  destruct (C10_no_empty_batch flat_world (config kSyncWithRecords)) as (_ & _ & _ & H).
  apply H. constructor.
Defined.
